(** * go-exercise: cycle detection by matrix powers

    A verification development for the [matrix] package (matrix/matrix.go)
    and its driver (main.go).  Go's [int] is modelled as a 64-bit two's
    complement integer carried in [Z] with the wrap-around written out;
    slices are lists; the goroutine pipeline inside [Multiply] is a small
    interleaving machine over three FIFO channels.  The runtime's refusal
    of a [make] that is too large is modelled with the limits of a 64-bit
    platform; running out of the machine's memory is not. *)

From stdpp Require Import base numbers list relations strings.

Local Open Scope Z_scope.

(** ** Go's [int] *)

Module GoInt.

Definition min_int : Z := - 2 ^ 63.
Definition max_int : Z := 2 ^ 63 - 1.

(** Reduction of a mathematical integer to the 64-bit signed range. *)
Definition wrap (z : Z) : Z := (z + 2 ^ 63) `mod` 2 ^ 64 - 2 ^ 63.

Definition add (x y : Z) : Z := wrap (x + y).
Definition mul (x y : Z) : Z := wrap (x * y).

(** [len] of a slice, as an [int]. *)
Definition len {A} (l : list A) : Z := Z.of_nat (length l).

End GoInt.
Import GoInt.

(** ** What the Go runtime refuses to allocate

    [make] panics when the memory asked for is more than the runtime can
    address: [makeslice: len out of range] for a slice of more than
    [maxAlloc] bytes, [makechan: size out of range] for a channel whose
    buffer, with its header of [hchanSize] bytes, is more than [maxAlloc]
    bytes; a negative length or capacity panics too.  The numbers are those
    of the 64-bit platforms (48 bits of heap addresses).  An [int] takes 8
    bytes, a slice header 24, and an [Element], three [int]s, 24.  The
    channel header is 96 bytes, 104 in the latest releases of Go: the
    difference changes nothing below, the capacities [n * n * n] that are
    accepted being those with [n ≤ 22720] either way. *)

Module GoRuntime.

Definition maxAlloc : Z := 2 ^ 48.
Definition hchanSize : Z := 96.

Definition intSize : Z := 8.
Definition sliceSize : Z := 24.
Definition elementSize : Z := 24.

(** Whether [make([]T, len)] returns, [elemSize] being the size of [T]. *)
Definition makeslice (elemSize len : Z) : bool :=
  (0 <=? len) && (elemSize * len <=? maxAlloc).

(** Whether [make(chan T, size)] returns. *)
Definition makechan (elemSize size : Z) : bool :=
  (0 <=? size) && (elemSize * size <=? maxAlloc - hchanSize).

End GoRuntime.
Import GoRuntime.

(** ** Data model *)

Record Element := mkElement {
  RowIndex : Z;
  ColIndex : Z;
  Value : Z
}.

Record Matrix := mkMatrix {
  Rows : Z;
  Columns : Z;
  Entries : list (list Z)
}.

(** The errors the package raises.  The source builds them with
    [errors.New]; the names are those of the specification.  The last three
    are runtime failures of Go itself. *)
Inductive failure :=
| DimensionError
| ShapeMismatchError
| IncompatibleDimensionsError
| InvalidPowerError
| IndexOutOfRange
| ChanSizeOutOfRange
| SliceLenOutOfRange.

(** What a call that may panic does: it returns, it panics, or the runtime
    stops the program because every goroutine is blocked. *)
Inductive outcome (A : Type) :=
| Returned (a : A)
| Panicked (e : failure)
| Deadlocked.
Arguments Returned {A} a.
Arguments Panicked {A} e.
Arguments Deadlocked {A}.

Definition bind {A B} (o : outcome A) (k : A → outcome B) : outcome B :=
  match o with
  | Returned a => k a
  | Panicked e => Panicked e
  | Deadlocked => Deadlocked
  end.

(** The zero value [Matrix{}]. *)
Definition zeroMatrix : Matrix := mkMatrix 0 0 [].

(** [make([][]int, rows)] with every row [make([]int, columns)]. *)
Definition zeroEntries (rows columns : Z) : list (list Z) :=
  replicate (Z.to_nat rows) (replicate (Z.to_nat columns) 0).

(** [NewMatrix(rows, columns, entries...)]: the variadic [entries] is the
    list of the extra arguments; the pair is Go's [(Matrix, error)].  The
    call panics instead of returning when [make([][]int, rows)] or the
    first [make([]int, columns)] is refused. *)
Definition NewMatrix (rows columns : Z) (entries : list (list (list Z)))
  : outcome (Matrix * option failure) :=
  if (rows <=? 0) || (columns <=? 0)
  then Returned (zeroMatrix, Some DimensionError)
  else match entries with
       | [] =>
           if makeslice sliceSize rows && makeslice intSize columns
           then Returned (mkMatrix rows columns (zeroEntries rows columns),
                          None)
           else Panicked SliceLenOutOfRange
       | entries0 :: _ =>
           if negb (len entries0 =? rows)
              || negb (match entries0 with
                       | row0 :: _ => len row0 =? columns
                       | [] => false (* not evaluated: [len entries0 = rows > 0] *)
                       end)
           then Returned (zeroMatrix, Some ShapeMismatchError)
           else Returned (mkMatrix rows columns entries0, None)
       end.

(** ** The pipeline inside [Multiply] *)

(** [s[i]] for an [int] index: [None] is Go's index-out-of-range panic. *)
Definition index {A} (s : list A) (i : Z) : option A :=
  if i <? 0 then None else s !! Z.to_nat i.

(** [computedMatrix.Entries[e.RowIndex][e.ColIndex] += e.Value]. *)
Definition accumulate (entries : list (list Z)) (e : Element)
  : option (list (list Z)) :=
  row ← index entries (RowIndex e);
  old ← index row (ColIndex e);
  Some (<[Z.to_nat (RowIndex e) :=
            <[Z.to_nat (ColIndex e) := add old (Value e)]> row]> entries).

(** What [computeProducts] sends for a pair it received. *)
Definition product (x y : Element) : Element :=
  mkElement (RowIndex x) (ColIndex y) (mul (Value x) (Value y)).

(** *** The encoder: the three nested [range] loops of [Multiply]

    The loops only read the two operands, so the sequence of pairs they
    send is a function of the operands.  The Boolean says that the walk
    ends in an index-out-of-range panic at [secondMatrix.Entries[j]]
    (after the pairs listed) instead of reaching the two [close]s. *)

Fixpoint encodeInner (i j : nat) (firstValue : Z) (k : nat) (row : list Z)
  : list (Element * Element) :=
  match row with
  | [] => []
  | secondValue :: row' =>
      (mkElement (Z.of_nat i) (Z.of_nat j) firstValue,
       mkElement (Z.of_nat j) (Z.of_nat k) secondValue)
      :: encodeInner i j firstValue (S k) row'
  end.

Fixpoint encodeRow (second : list (list Z)) (i j : nat) (row : list Z)
  : list (Element * Element) * bool :=
  match row with
  | [] => ([], false)
  | firstValue :: row' =>
      match second !! j with
      | None => ([], true)
      | Some secondRow =>
          let '(rest, fails) := encodeRow second i (S j) row' in
          (encodeInner i j firstValue 0 secondRow ++ rest, fails)
      end
  end.

Fixpoint encodeRows (second : list (list Z)) (i : nat) (rows : list (list Z))
  : list (Element * Element) * bool :=
  match rows with
  | [] => ([], false)
  | row :: rows' =>
      let '(here, fails) := encodeRow second i 0 row in
      if fails then (here, true)
      else let '(rest, fails') := encodeRows second (S i) rows' in
           (here ++ rest, fails')
  end.

Definition encode (self secondMatrix : Matrix)
  : list (Element * Element) * bool :=
  encodeRows (Entries secondMatrix) 0 (Entries self).

(** *** Channels and goroutines *)

Record chan := mkChan {
  buf : list Element;     (* oldest element first *)
  closed : bool
}.

(** Where the calling goroutine stands in [Multiply] after the channels
    are made and [computeProducts] is started. *)
Inductive mainLoc :=
| MSendFirst (pending : list (Element * Element))
    (* at [firstInputChannel <- ...] of the head pair; at the end of the
       loops when nothing is pending *)
| MSendSecond (y : Element) (pending : list (Element * Element))
    (* at [secondInputChannel <- y] *)
| MCloseSecond   (* at [close(secondInputChannel)] *)
| MAssemble      (* at the head of [for ... range finalOutputChannel] *)
| MReturned
| MPanicked.

(** Where [computeProducts] stands. *)
Inductive workerLoc :=
| WRecvFirst                                   (* at [<-firstInputChannel] *)
| WRecvSecond (x : Element) (firstChannelIsOpen : bool)
                                               (* at [<-secondInputChannel] *)
| WSend (e : Element)                          (* at [finalOutputChannel <- e] *)
| WClose                                       (* at [close(finalOutputChannel)] *)
| WExited.

Record state := mkState {
  mainPc : mainLoc;
  workerPc : workerLoc;
  firstInputChannel : chan;
  secondInputChannel : chan;
  finalOutputChannel : chan;
  computedEntries : list (list Z)
}.

Definition push (c : chan) (e : Element) : chan :=
  mkChan (buf c ++ [e]) (closed c).

Definition close (c : chan) : chan := mkChan (buf c) true.

Definition initial (pairs : list (Element * Element))
    (entries : list (list Z)) : state :=
  mkState (MSendFirst pairs) WRecvFirst
          (mkChan [] false) (mkChan [] false) (mkChan [] false) entries.

(** The assembler's loop body on a received element. *)
Definition assemble (e : Element) (st : state) (final : chan) : state :=
  match accumulate (computedEntries st) e with
  | Some entries' =>
      mkState MAssemble (workerPc st) (firstInputChannel st)
              (secondInputChannel st) final entries'
  | None =>
      mkState MPanicked (workerPc st) (firstInputChannel st)
              (secondInputChannel st) final (computedEntries st)
  end.

(** What [computeProducts] does once both receives are done. *)
Definition decide_product (x y : Element) (firstOpen secondOpen : bool)
  : workerLoc :=
  if firstOpen && secondOpen then WSend (product x y) else WClose.

Definition noElement : Element := mkElement 0 0 0.

Section Machine.

(** The capacity given to the three [make(chan Element, size)], and
    whether the encoder's walk ends in a panic. *)
Variable size : Z.
Variable encoderFails : bool.

(** One step of the calling goroutine; [None] when it is blocked or has
    finished.  A channel of capacity 0 is unbuffered: a send happens only
    together with the matching receive of the goroutine waiting there. *)
Definition mainStep (st : state) : option state :=
  match mainPc st with
  | MSendFirst [] =>
      if encoderFails
      then Some (mkState MPanicked (workerPc st) (firstInputChannel st)
                   (secondInputChannel st) (finalOutputChannel st)
                   (computedEntries st))
      else Some (mkState MCloseSecond (workerPc st)
                   (close (firstInputChannel st))
                   (secondInputChannel st) (finalOutputChannel st)
                   (computedEntries st))
  | MSendFirst ((x, y) :: pending) =>
      if size =? 0 then
        match workerPc st with
        | WRecvFirst =>
            Some (mkState (MSendSecond y pending) (WRecvSecond x true)
                    (firstInputChannel st) (secondInputChannel st)
                    (finalOutputChannel st) (computedEntries st))
        | _ => None
        end
      else if len (buf (firstInputChannel st)) <? size then
        Some (mkState (MSendSecond y pending) (workerPc st)
                (push (firstInputChannel st) x) (secondInputChannel st)
                (finalOutputChannel st) (computedEntries st))
      else None
  | MSendSecond y pending =>
      if size =? 0 then
        match workerPc st with
        | WRecvSecond x firstOpen =>
            Some (mkState (MSendFirst pending)
                    (decide_product x y firstOpen true)
                    (firstInputChannel st) (secondInputChannel st)
                    (finalOutputChannel st) (computedEntries st))
        | _ => None
        end
      else if len (buf (secondInputChannel st)) <? size then
        Some (mkState (MSendFirst pending) (workerPc st)
                (firstInputChannel st) (push (secondInputChannel st) y)
                (finalOutputChannel st) (computedEntries st))
      else None
  | MCloseSecond =>
      Some (mkState MAssemble (workerPc st) (firstInputChannel st)
              (close (secondInputChannel st)) (finalOutputChannel st)
              (computedEntries st))
  | MAssemble =>
      match buf (finalOutputChannel st) with
      | e :: rest =>
          Some (assemble e st (mkChan rest (closed (finalOutputChannel st))))
      | [] =>
          if closed (finalOutputChannel st)
          then Some (mkState MReturned (workerPc st) (firstInputChannel st)
                       (secondInputChannel st) (finalOutputChannel st)
                       (computedEntries st))
          else None
      end
  | MReturned | MPanicked => None
  end.

(** One step of [computeProducts]. *)
Definition workerStep (st : state) : option state :=
  match workerPc st with
  | WRecvFirst =>
      match buf (firstInputChannel st) with
      | x :: rest =>
          Some (mkState (mainPc st) (WRecvSecond x true)
                  (mkChan rest (closed (firstInputChannel st)))
                  (secondInputChannel st) (finalOutputChannel st)
                  (computedEntries st))
      | [] =>
          if closed (firstInputChannel st)
          then Some (mkState (mainPc st) (WRecvSecond noElement false)
                       (firstInputChannel st) (secondInputChannel st)
                       (finalOutputChannel st) (computedEntries st))
          else None
      end
  | WRecvSecond x firstOpen =>
      match buf (secondInputChannel st) with
      | y :: rest =>
          Some (mkState (mainPc st) (decide_product x y firstOpen true)
                  (firstInputChannel st)
                  (mkChan rest (closed (secondInputChannel st)))
                  (finalOutputChannel st) (computedEntries st))
      | [] =>
          if closed (secondInputChannel st)
          then Some (mkState (mainPc st)
                       (decide_product x noElement firstOpen false)
                       (firstInputChannel st) (secondInputChannel st)
                       (finalOutputChannel st) (computedEntries st))
          else None
      end
  | WSend e =>
      if size =? 0 then
        match mainPc st with
        | MAssemble =>
            Some (assemble e
                    (mkState MAssemble WRecvFirst (firstInputChannel st)
                       (secondInputChannel st) (finalOutputChannel st)
                       (computedEntries st))
                    (finalOutputChannel st))
        | _ => None
        end
      else if len (buf (finalOutputChannel st)) <? size then
        Some (mkState (mainPc st) WRecvFirst (firstInputChannel st)
                (secondInputChannel st) (push (finalOutputChannel st) e)
                (computedEntries st))
      else None
  | WClose =>
      Some (mkState (mainPc st) WExited (firstInputChannel st)
              (secondInputChannel st) (close (finalOutputChannel st))
              (computedEntries st))
  | WExited => None
  end.

Inductive goroutine := Caller | Worker.

Definition stepOf (g : goroutine) : state → option state :=
  match g with Caller => mainStep | Worker => workerStep end.

(** The scheduler is free to run either goroutine that can move. *)
Definition step (st st' : state) : Prop :=
  ∃ g, stepOf g st = Some st'.

(** The call is over once the calling goroutine returned or panicked
    (a panic ends the whole program). *)
Definition finished (st : state) : bool :=
  match mainPc st with MReturned | MPanicked => true | _ => false end.

(** One particular schedule: the worker runs whenever it can. *)
Definition scheduled (st : state) : option state :=
  match workerStep st with
  | Some st' => Some st'
  | None => mainStep st
  end.

Fixpoint run (fuel : nat) (st : state) : state :=
  match fuel with
  | O => st
  | S fuel' =>
      if finished st then st
      else match scheduled st with
           | Some st' => run fuel' st'
           | None => st
           end
  end.

(** The number of steps that [run] takes. *)
Fixpoint runLength (fuel : nat) (st : state) : nat :=
  match fuel with
  | O => O
  | S fuel' =>
      if finished st then O
      else match scheduled st with
           | Some st' => S (runLength fuel' st')
           | None => O
           end
  end.

End Machine.

(** A bound on the number of steps any schedule can take from a state. *)
Definition mainPotential (pc : mainLoc) : nat :=
  match pc with
  | MSendFirst pending => 7 * length pending + 3
  | MSendSecond _ pending => 7 * length pending + 8
  | MCloseSecond => 2
  | MAssemble => 1
  | MReturned | MPanicked => 0
  end.

Definition workerPotential (pc : workerLoc) : nat :=
  match pc with
  | WRecvFirst => 3
  | WRecvSecond _ _ => 2
  | WSend _ => 5
  | WClose => 1
  | WExited => 0
  end.

Definition potential (st : state) : nat :=
  (mainPotential (mainPc st) + workerPotential (workerPc st)
   + length (buf (firstInputChannel st))
   + 4 * length (buf (secondInputChannel st))
   + length (buf (finalOutputChannel st)))%nat.

(** ** The methods of [Matrix] *)

(** [self.Multiply(secondMatrix)].  The goroutines are run under the
    schedule [scheduled] for as many steps as any schedule can take
    ([potential]); for square operands every other schedule ends in the
    same matrix (see [multiplyRuns_invariant] and [invariant_returned]). *)
Definition Multiply (self secondMatrix : Matrix) : outcome Matrix :=
  if negb (Rows self =? Columns secondMatrix)
  then Panicked IncompatibleDimensionsError
  else
    match NewMatrix (Rows self) (Columns self) [] with
    | Panicked e => Panicked e
    | Deadlocked => Deadlocked
    | Returned (_, Some err) => Panicked err
    | Returned (computedMatrix, None) =>
        let size := mul (mul (Rows computedMatrix) (Rows computedMatrix))
                        (Rows computedMatrix) in
        if negb (makechan elementSize size) then Panicked ChanSizeOutOfRange
        else
          let '(pairs, fails) := encode self secondMatrix in
          let st0 := initial pairs (Entries computedMatrix) in
          let st := run size fails (potential st0) st0 in
          match mainPc st with
          | MReturned =>
              Returned (mkMatrix (Rows computedMatrix)
                                 (Columns computedMatrix)
                                 (computedEntries st))
          | MPanicked => Panicked IndexOutOfRange
          | _ => Deadlocked
          end
    end.

(** The loop of [Exponentiate]: [iterations] passes of
    [currentMatrix = initialMatrix.Multiply(currentMatrix)].  The second
    component records the operands of every call of [Multiply], in order. *)
Fixpoint exponentiateLoop (iterations : nat)
    (initialMatrix currentMatrix : Matrix) (calls : list (Matrix * Matrix))
  : outcome Matrix * list (Matrix * Matrix) :=
  match iterations with
  | O => (Returned currentMatrix, calls)
  | S iterations' =>
      let calls' := calls ++ [(initialMatrix, currentMatrix)] in
      match Multiply initialMatrix currentMatrix with
      | Returned m => exponentiateLoop iterations' initialMatrix m calls'
      | Panicked e => (Panicked e, calls')
      | Deadlocked => (Deadlocked, calls')
      end
  end.

(** [initialMatrix.Exponentiate(power)] with the log of its calls of
    [Multiply]; [for i := 1; i < power; i++] makes [power - 1] passes. *)
Definition exponentiateLogged (initialMatrix : Matrix) (power : Z)
  : outcome Matrix * list (Matrix * Matrix) :=
  if power <=? 0 then (Panicked InvalidPowerError, [])
  else exponentiateLoop (Z.to_nat (power - 1)) initialMatrix initialMatrix [].

Definition Exponentiate (initialMatrix : Matrix) (power : Z)
  : outcome Matrix :=
  fst (exponentiateLogged initialMatrix power).

Definition multiplyCalls (initialMatrix : Matrix) (power : Z)
  : list (Matrix * Matrix) :=
  snd (exponentiateLogged initialMatrix power).

(** [self.Trace()]: both [range] loops, adding where [i == j]. *)
Fixpoint traceRow (i j : nat) (row : list Z) (trace : Z) : Z :=
  match row with
  | [] => trace
  | value :: row' =>
      traceRow i (S j) row' (if (i =? j)%nat then add trace value else trace)
  end.

Fixpoint traceRows (i : nat) (rows : list (list Z)) (trace : Z) : Z :=
  match rows with
  | [] => trace
  | row :: rows' => traceRows (S i) rows' (traceRow i 0 row trace)
  end.

Definition Trace (self : Matrix) : Z := traceRows 0 (Entries self) 0.

(** ** main.go *)

Definition isGraphCyclic (adjacencyMatrix : Matrix) : outcome bool :=
  bind (Exponentiate adjacencyMatrix (Rows adjacencyMatrix))
       (λ raisedAdjacencyMatrix,
          Returned (negb (Trace raisedAdjacencyMatrix =? 0))).

(** What [main] does, in order, once the table is parsed. *)
Inductive event :=
| Warned                          (* "WARN: Only square matrices allowed." *)
| PrintedMatrix (m : Matrix)
| PrintedVerdict (cyclic : bool)
| Fatal (e : failure)             (* [log.Fatal(err)] *)
| Crashed (e : failure)           (* an uncaught panic *)
| Hung.                           (* all goroutines asleep *)

(** [main] from [matrixElements := convertContentsToInt(elements)] on. *)
Definition mainOnTable (matrixElements : list (list Z)) : list event :=
  let matrixRows := len matrixElements in
  let matrixColumns := len matrixElements in
  (if negb (matrixRows =? matrixColumns) then [Warned] else [])
  ++ match NewMatrix matrixRows matrixColumns [matrixElements] with
     | Panicked e => [Crashed e]
     | Deadlocked => [Hung]
     | Returned (_, Some err) => [Fatal err]
     | Returned (constructedMatrix, None) =>
         PrintedMatrix constructedMatrix
         :: match isGraphCyclic constructedMatrix with
            | Returned b => [PrintedVerdict b]
            | Panicked e => [Crashed e]
            | Deadlocked => [Hung]
            end
     end.

(** ** Vocabulary of the properties *)

(** The Matrix invariant for a square matrix of side [n]. *)
Definition shaped (rows columns : Z) (m : Matrix) : Prop :=
  Rows m = rows ∧ Columns m = columns
  ∧ len (Entries m) = rows
  ∧ Forall (λ row, len row = columns) (Entries m).

Definition square (n : Z) (m : Matrix) : Prop := shaped n n m.

(** The side is small enough for [rows * rows * rows] to be an [int]. *)
Definition cubeFits (n : Z) : Prop := n * n * n ≤ max_int.

(** The side is small enough for the runtime to make the three channels of
    capacity [n * n * n]: on a 64-bit platform, [n ≤ 22720]. *)
Definition chansFit (n : Z) : Prop :=
  elementSize * (n * n * n) ≤ maxAlloc - hchanSize.

(** Entry [(i, j)], and 0 outside the grid. *)
Definition entry (entries : list (list Z)) (i j : nat) : Z :=
  default 0 (row ← entries !! i; row !! j).

(** The reference product, computed serially for one cell after another:
    [sum := 0; for j := 0; j < n; j++ { sum += a[i][j] * b[j][k] }]. *)
Definition serialEntry (a b : list (list Z)) (n i k : nat) : Z :=
  foldl (λ sum j, add sum (mul (entry a i j) (entry b j k))) 0 (seq 0 n).

Definition serialProduct (a b : list (list Z)) (n : nat) : list (list Z) :=
  (λ i, (λ k, serialEntry a b n i k) <$> seq 0 n) <$> seq 0 n.

(** A run of the pipeline under an arbitrary schedule, from the state in
    which [Multiply] starts it, to the return of the calling goroutine. *)
Definition multiplyRuns (self secondMatrix : Matrix) (st : state) : Prop :=
  let n := Rows self in
  rtc (step (mul (mul n n) n) (encode self secondMatrix).2)
      (initial (encode self secondMatrix).1 (zeroEntries n (Columns self)))
      st.

(** The directed graph of an adjacency matrix: an edge from [i] to [j]
    where entry [(i, j)] is not zero. *)
Definition edge (m : Matrix) (i j : nat) : bool :=
  negb (entry (Entries m) i j =? 0).

Fixpoint walk (m : Matrix) (from : nat) (nodes : list nat) : bool :=
  match nodes with
  | [] => true
  | next :: nodes' => edge m from next && walk m next nodes'
  end.

(** [nodes] lists the distinct nodes of a directed cycle, each with an
    edge to the next and the last with an edge to the first. *)
Definition isCycle (m : Matrix) (nodes : list nat) : Prop :=
  match nodes with
  | [] => False
  | first :: rest =>
      NoDup nodes
      ∧ Forall (λ v, (v < length (Entries m))%nat) nodes
      ∧ walk m first (rest ++ [first]) = true
  end.

Definition hasCycle (m : Matrix) : Prop := ∃ nodes, isCycle m nodes.

(** A 0/1 adjacency matrix. *)
Definition binary (m : Matrix) : Prop :=
  Forall (Forall (λ v, v = 0 ∨ v = 1)) (Entries m).

(** A parsed table with [r] records of [c] fields each. *)
Definition rectangular (r c : nat) (table : list (list Z)) : Prop :=
  length table = r ∧ Forall (λ line, length line = c) table.

(** ** Vocabulary of the proofs about the pipeline *)

(** The tagged products a list of pairs gives rise to. *)
Definition products (pairs : list (Element * Element)) : list Element :=
  (λ p, product p.1 p.2) <$> pairs.

(** The assembler's loop over a list of elements. *)
Fixpoint accumulateAll (es : list Element) (entries : list (list Z))
  : option (list (list Z)) :=
  match es with
  | [] => Some entries
  | e :: es' => entries' ← accumulate entries e; accumulateAll es' entries'
  end.

(** What one cell receives from a list of elements, in their order. *)
Definition contribution (es : list Element) (i k : nat) (sum : Z) : Z :=
  foldl (λ sum e,
           if decide (RowIndex e = Z.of_nat i ∧ ColIndex e = Z.of_nat k)
           then add sum (Value e) else sum) sum es.

Definition grid (r c : nat) (entries : list (list Z)) : Prop :=
  length entries = r ∧ Forall (λ row, length row = c) entries.

Definition inGrid (r c : nat) (e : Element) : Prop :=
  0 ≤ RowIndex e < Z.of_nat r ∧ 0 ≤ ColIndex e < Z.of_nat c.

(** The elements of the first and of the second stream that the worker
    has not paired yet, wherever they are, and the products that the
    assembler has not added yet. *)
Definition heldFirst (pc : workerLoc) : list Element :=
  match pc with WRecvSecond x true => [x] | _ => [] end.

Definition heldProduct (pc : workerLoc) : list Element :=
  match pc with WSend e => [e] | _ => [] end.

Definition pendingFirst (pc : mainLoc) : list Element :=
  match pc with
  | MSendFirst pending | MSendSecond _ pending => pending.*1
  | _ => []
  end.

Definition pendingSecond (pc : mainLoc) : list Element :=
  match pc with
  | MSendFirst pending => pending.*2
  | MSendSecond y pending => y :: pending.*2
  | _ => []
  end.

Definition firstStream (st : state) : list Element :=
  heldFirst (workerPc st) ++ buf (firstInputChannel st)
  ++ pendingFirst (mainPc st).

Definition secondStream (st : state) : list Element :=
  buf (secondInputChannel st) ++ pendingSecond (mainPc st).

Definition outstanding (st : state) : list Element :=
  buf (finalOutputChannel st) ++ heldProduct (workerPc st)
  ++ zip_with product (firstStream st) (secondStream st).

(** The [closed] flags follow the program counters. *)
Definition flagsAgree (st : state) : Prop :=
  closed (firstInputChannel st)
  = match mainPc st with
    | MSendFirst _ | MSendSecond _ _ => false
    | _ => true
    end
  ∧ closed (secondInputChannel st)
    = match mainPc st with
      | MAssemble | MReturned => true
      | _ => false
      end
  ∧ closed (finalOutputChannel st)
    = match workerPc st with WExited => true | _ => false end
  ∧ mainPc st ≠ MPanicked
  ∧ match mainPc st with
    | MReturned =>
        buf (finalOutputChannel st) = [] ∧ workerPc st = WExited
    | _ => True
    end
  ∧ match workerPc st with
    | WRecvSecond _ false | WClose | WExited =>
        closed (firstInputChannel st) = true
        ∧ buf (firstInputChannel st) = []
    | _ => True
    end.

(** The invariant of a run that ends in [target]. *)
Record invariant (size : Z) (target : list (list Z)) (st : state) : Prop := {
  inv_target : accumulateAll (outstanding st) (computedEntries st) = Some target;
  inv_lockstep : length (firstStream st) = length (secondStream st);
  inv_room : len (outstanding st) ≤ size;
  inv_flags : flagsAgree st
}.

(** The contraction sum of cell [(i, k)] in the integers. *)
Definition dot (a b : list (list Z)) (n i k : nat) : Z :=
  foldr Z.add 0 ((λ j, entry a i j * entry b j k) <$> seq 0 n).

(** ** Vocabulary of the further properties *)

(** The sum of the diagonal in the integers; a row too short to meet the
    diagonal adds nothing. *)
Definition diagonalSum (entries : list (list Z)) : Z :=
  foldr Z.add 0 ((λ d, entry entries d d) <$> seq 0 (length entries)).

(** Every entry is a value of type [int]. *)
Definition ints (entries : list (list Z)) : Prop :=
  Forall (Forall (λ v, min_int ≤ v ≤ max_int)) entries.

(** *** [convertContentsToInt] of main.go

    [strconv.Atoi] belongs to Go's library: it is a parameter, giving the
    [int] or the error it returns.  [log.Fatal(err)] ends the program at
    the first entry, in reading order, that does not parse: that error is
    the [inr] result. *)
Section Convert.

Context {E : Type}.
Variable Atoi : string → Z + E.

Fixpoint convertLine (line : list string) : list Z + E :=
  match line with
  | [] => inl []
  | entry :: line' =>
      match Atoi entry with
      | inr err => inr err
      | inl intifiedEntry =>
          match convertLine line' with
          | inr err => inr err
          | inl rest => inl (intifiedEntry :: rest)
          end
      end
  end.

Fixpoint convertContentsToInt (contents : list (list string))
  : list (list Z) + E :=
  match contents with
  | [] => inl []
  | line :: contents' =>
      match convertLine line with
      | inr err => inr err
      | inl newLine =>
          match convertContentsToInt contents' with
          | inr err => inr err
          | inl rest => inl (newLine :: rest)
          end
      end
  end.

End Convert.

(** *** Matrix algebra in the integers *)

(** The sum of [f j] for [j] from [start] over [count] indices. *)
Definition sumZ (f : nat → Z) (start count : nat) : Z :=
  foldr Z.add 0 (f <$> seq start count).

(** The product of two grids of side [n] in the integers. *)
Definition productZ (a b : list (list Z)) (n : nat) : list (list Z) :=
  (λ i, (λ k, dot a b n i k) <$> seq 0 n) <$> seq 0 n.

(** [a] to the power [p + 1] in the integers, multiplying on the left. *)
Fixpoint powerZ (a : list (list Z)) (n p : nat) : list (list Z) :=
  match p with
  | O => a
  | S p' => productZ a (powerZ a n p') n
  end.

Definition identityEntries (n : nat) : list (list Z) :=
  (λ i, (λ k, if decide (i = k) then 1 else 0) <$> seq 0 n) <$> seq 0 n.

(** The identity matrix of side [n]. *)
Definition identity (n : Z) : Matrix :=
  mkMatrix n n (identityEntries (Z.to_nat n)).

(** Every entry reduced to an [int]. *)
Definition wrapEntries (entries : list (list Z)) : list (list Z) :=
  (λ row : list Z, wrap <$> row) <$> entries.

(** *** Vocabulary of the runs that cannot finish *)

(** The caller is still in the encoder's loops, and [total] counts the
    pairs: those not yet sent, those in the first channel, the one the
    worker holds, and the products in the output channel. *)
Definition encoding (total : nat) (size : Z) (st : state) : Prop :=
  match mainPc st with
  | MSendFirst _ | MSendSecond _ _ => True
  | _ => False
  end
  ∧ closed (firstInputChannel st) = false
  ∧ closed (secondInputChannel st) = false
  ∧ closed (finalOutputChannel st) = false
  ∧ match workerPc st with
    | WRecvFirst | WRecvSecond _ true | WSend _ => True
    | _ => False
    end
  ∧ (length (pendingFirst (mainPc st))
     + length (buf (firstInputChannel st))
     + length (heldFirst (workerPc st))
     + length (heldProduct (workerPc st))
     + length (buf (finalOutputChannel st)) = total)%nat
  ∧ len (buf (firstInputChannel st)) ≤ size
  ∧ len (buf (finalOutputChannel st)) ≤ size.

(** *** The invariant of a run with room to spare

    The same as [invariant], with the room that operands of any shape
    need: no channel holds more than its capacity, and the elements still
    to be assembled are at most [2 * size + 1].  [result] is what the
    assembler's loop makes of those elements: the entries that the call
    returns, or [None] when one of them falls outside the grid. *)
Record roomy (size : Z) (result : option (list (list Z))) (st : state)
  : Prop := {
  roomy_result :
    accumulateAll (outstanding st) (computedEntries st) = result;
  roomy_lockstep : length (firstStream st) = length (secondStream st);
  roomy_first : len (buf (firstInputChannel st)) ≤ size;
  roomy_second : len (buf (secondInputChannel st)) ≤ size;
  roomy_final : len (buf (finalOutputChannel st)) ≤ size;
  roomy_total : len (outstanding st) ≤ 2 * size + 1;
  roomy_flags : flagsAgree st
}.

(** The product of an [r]-by-[c] grid and a [c]-by-[r] grid as [Multiply]
    lays it out: in the first [r] columns of a grid of [r] rows and [c]
    columns that is zero elsewhere. *)
Definition paddedProduct (a b : list (list Z)) (r c : nat) : list (list Z) :=
  (λ i, (λ k, if decide (k < r)%nat then serialEntry a b c i k else 0)
          <$> seq 0 c) <$> seq 0 r.

(** ** Fixtures *)

Definition fixtureLeft : Matrix := mkMatrix 2 2 [[1; 2]; [3; 4]].
Definition fixtureRight : Matrix := mkMatrix 2 2 [[5; 6]; [7; 8]].

(** Three nodes with the edges 0 → 1 and 1 → 0. *)
Definition twoCycle : Matrix := mkMatrix 3 3 [[0; 1; 0]; [1; 0; 0]; [0; 0; 0]].

(** The directed 3-cycle and the path of the specification. *)
Definition threeCycle : Matrix :=
  mkMatrix 3 3 [[0; 1; 0]; [0; 0; 1]; [1; 0; 0]].
Definition threePath : Matrix :=
  mkMatrix 3 3 [[0; 1; 0]; [0; 0; 1]; [0; 0; 0]].

(** Entries whose second row is shorter than the first. *)
Definition raggedEntries : list (list Z) := [[1; 2]; [3]].

(** A parsed table of two records with three fields each. *)
Definition wideTable : list (list Z) := [[1; 2; 3]; [4; 5; 6]].

(** A closed walk of [length] edges: it leaves some node, follows an edge
    to each node of [nodes] in turn, and ends where it started. *)
Definition closedWalk (m : Matrix) (length : nat) : Prop :=
  ∃ start nodes,
    List.length nodes = length ∧ walk m start nodes = true
    ∧ last nodes = Some start.

(** Two rows of three, three rows of two, one row of four and four rows of
    one. *)
Definition wideMatrix : Matrix := mkMatrix 2 3 [[1; 2; 3]; [4; 5; 6]].
Definition tallMatrix : Matrix := mkMatrix 3 2 [[1; 2]; [3; 4]; [5; 6]].
Definition rowVector : Matrix := mkMatrix 1 4 [[1; 2; 3; 4]].

(** The square matrix of side [n] whose entries are all zero. *)
Definition zeroSquare (n : Z) : Matrix := mkMatrix n n (zeroEntries n n).

(** The smallest side whose channels the runtime refuses to make:
    [22721 * 22721 * 22721] elements of 24 bytes are more than 2^48 bytes. *)
Definition refusedSquare : Matrix := zeroSquare 22721.

(** A side whose cube, [2^66], is 0 as an [int]: the channels are made
    without a buffer. *)
Definition unbufferedSquare : Matrix := zeroSquare 4194304.
Definition columnVector : Matrix := mkMatrix 4 1 [[1]; [2]; [3]; [4]].

(** ** Tactics *)

(** Take a state apart into its program counters, buffers and flags. *)
Ltac crush_state st :=
  destruct st as [mp wp [b1 c1] [b2 c2] [b3 c3] m].

(** Goals about the lengths of the streams. *)
Ltac lengths :=
  unfold len in *; simpl in *;
  rewrite ?length_app, ?length_zip_with, ?length_fmap in *; simpl in *;
  rewrite ?length_app, ?length_zip_with, ?length_fmap in *; simpl in *;
  try lia.

(** Use what is known of the assembler's step on the head element. *)
Ltac use_accumulate :=
  repeat match goal with
    | H : accumulate ?m ?e = _, H' : context [accumulate ?m ?e] |- _ =>
        progress (rewrite H in H'; simpl in H')
    end.

(** The shape of a fixture. *)
Ltac shape_fixture :=
  unfold square, shaped; split_and!; [reflexivity..|];
  repeat first [apply Forall_nil_2 | apply Forall_cons_2]; reflexivity.

(** * Proofs *)

(** ** Arithmetic of [int] *)

Lemma wrap_small z : min_int ≤ z ≤ max_int → wrap z = z.
Proof.
  unfold wrap, min_int, max_int. intros Hz.
  rewrite Z.mod_small; lia.
Qed.

Lemma chansFit_bound n : chansFit n → n * n * n ≤ 11728124029606.
Proof.
  unfold chansFit, elementSize, maxAlloc, hchanSize. intros Hc.
  assert (H48 : 2 ^ 48 = 281474976710656) by reflexivity. lia.
Qed.

(** The sides whose channels can be made are those up to 22720. *)
Lemma chansFit_side n : 0 < n → chansFit n ↔ n ≤ 22720.
Proof.
  intros Hn. unfold chansFit.
  assert (H48 : maxAlloc - hchanSize = 281474976710560) by reflexivity.
  assert (H24 : elementSize = 24) by reflexivity.
  rewrite H48, H24. split.
  - intros Hc. destruct (decide (n ≤ 22720)) as [|Hgt]; [done|]. exfalso.
    assert (22721 * 22721 ≤ n * n) by nia.
    assert (22721 * 22721 * 22721 ≤ n * n * n) by nia.
    lia.
  - intros Hle.
    assert (n * n ≤ 22720 * 22720) by nia.
    assert (n * n * n ≤ 22720 * 22720 * 22720) by nia.
    lia.
Qed.

Lemma cube_size n :
  0 < n → chansFit n → mul (mul n n) n = n * n * n.
Proof.
  intros Hn Hc%chansFit_bound. unfold mul.
  assert (n * n ≤ n * n * n) by nia.
  assert (Hmax : max_int = 9223372036854775807) by reflexivity.
  assert (Hmin : min_int = - 9223372036854775808) by reflexivity.
  rewrite (wrap_small (n * n)) by nia.
  rewrite wrap_small by nia. done.
Qed.

Lemma chansFit_makechan n :
  0 < n → chansFit n → makechan elementSize (mul (mul n n) n) = true.
Proof.
  intros Hn Hc. rewrite cube_size by done. unfold makechan.
  apply andb_true_iff. split; [apply Z.leb_le; nia|by apply Z.leb_le].
Qed.

Lemma chansFit_makeslice n c :
  0 < n → chansFit n → 0 ≤ c ≤ 2 * n + 1 →
  makeslice sliceSize n = true ∧ makeslice intSize c = true.
Proof.
  intros Hn Hc%chansFit_bound Hcn.
  assert (n ≤ n * n * n) by nia.
  assert (H48 : maxAlloc = 281474976710656) by reflexivity.
  unfold makeslice, sliceSize, intSize. rewrite H48.
  split; apply andb_true_iff; split; apply Z.leb_le; nia.
Qed.

(** ** Every step uses up potential *)

Lemma step_potential size fails st st' :
  step size fails st st' → (potential st' < potential st)%nat.
Proof.
  intros [g Hg]. crush_state st.
  destruct g; simpl in Hg; unfold mainStep, workerStep, assemble, decide_product in Hg;
    simpl in Hg;
    repeat (case_match; simplify_eq; simpl in * );
    unfold potential; simpl; rewrite ?length_app; simpl; lia.
Qed.

Lemma accumulateAll_cons e es m target :
  accumulateAll (e :: es) m = Some target →
  ∃ m', accumulate m e = Some m' ∧ accumulateAll es m' = Some target.
Proof.
  simpl. destruct (accumulate m e) as [m'|]; simpl; [eauto | done].
Qed.

Lemma zip_with_cons {A B C} (f : A → B → C) x l y k :
  zip_with f (x :: l) (y :: k) = f x y :: zip_with f l k.
Proof. done. Qed.

Lemma zip_with_nil {A B C} (f : A → B → C) k : zip_with f [] k = [].
Proof. done. Qed.

Local Opaque zip_with.

Lemma invariant_step size target st st' :
  0 < size →
  invariant size target st → step size false st st' →
  invariant size target st'.
Proof.
  intros Hsize [Ht Hl Hr Hf] [g Hg]. crush_state st.
  assert (Hz : (size =? 0) = false) by (apply Z.eqb_neq; lia).
  unfold outstanding, firstStream, secondStream, flagsAgree in *.
  simpl in Hf. destruct Hf as (Hc1 & Hc2 & Hc3 & Hnp & Hret & Hdr).
  destruct g; simpl in Hg; unfold mainStep, workerStep, assemble, decide_product in Hg;
    simpl in *; rewrite ?Hz in Hg.
  - destruct mp as [[|[x y] p]|y p| | | |]; simpl in *; simplify_eq.
    all: repeat (case_match; simplify_eq; simpl in * ).
    all: destruct_and?; simplify_eq.
    all: try (apply accumulateAll_cons in Ht as (m' & Hm' & Ht); simplify_eq).
    all: try (split; unfold outstanding, firstStream, secondStream, flagsAgree; simpl).
    all: rewrite <- ?(assoc_L (++)); simpl; try done.
    all: try (by lengths).
    all: try (split_and!; try done; try lia).
  - destruct wp as [|x [|]|e| |]; simpl in *; simplify_eq.
    all: destruct mp as [[|[x' y'] p]|y' p| | | |]; simpl in *; simplify_eq.
    all: repeat (case_match; simplify_eq; simpl in * ).
    all: destruct_and?; simplify_eq.
    all: try (exfalso; destruct mp; simplify_eq; lengths; fail).
    all: try (split; unfold outstanding, firstStream, secondStream, flagsAgree; simpl).
    all: rewrite <- ?(assoc_L (++)); simpl; rewrite ?zip_with_cons; try done.
    all: try (by lengths).
    all: try (split_and!; try done; try lia).
Qed.

Lemma zip_with_fst_snd (pairs : list (Element * Element)) :
  zip_with product pairs.*1 pairs.*2 = products pairs.
Proof.
  induction pairs as [|[x y] pairs IH]; [done|].
  rewrite !fmap_cons, zip_with_cons, IH. done.
Qed.

Lemma invariant_initial size target pairs entries :
  accumulateAll (products pairs) entries = Some target →
  len pairs ≤ size →
  invariant size target (initial pairs entries).
Proof.
  intros Ht Hs.
  assert (Ho : outstanding (initial pairs entries) = products pairs).
  { unfold outstanding, firstStream, secondStream. simpl.
    apply zip_with_fst_snd. }
  split.
  - by rewrite Ho.
  - unfold firstStream, secondStream. simpl. by rewrite !length_fmap.
  - rewrite Ho. unfold products, len in *. by rewrite length_fmap.
  - unfold flagsAgree. simpl. done.
Qed.

Lemma invariant_rtc size target st st' :
  0 < size →
  invariant size target st → rtc (step size false) st st' →
  invariant size target st'.
Proof.
  intros Hsize Hinv Hrtc. induction Hrtc; eauto using invariant_step.
Qed.

(** While the invariant holds the encoder's sends find room. *)
Lemma invariant_send size target st :
  0 < size → invariant size target st →
  match mainPc st with
  | MSendFirst (_ :: _) | MSendSecond _ _ => is_Some (mainStep size false st)
  | _ => True
  end.
Proof.
  intros Hsize [Ht Hl Hr Hf]. crush_state st.
  assert (Hz : (size =? 0) = false) by (apply Z.eqb_neq; lia).
  unfold outstanding, firstStream, secondStream in *.
  destruct mp as [[|[x y] p]|y p| | | |]; simpl in *; try done.
  - unfold mainStep. simpl. rewrite Hz.
    case_match eqn:Hlt; [done|]. apply Z.ltb_ge in Hlt. lengths.
  - unfold mainStep. simpl. rewrite Hz.
    case_match eqn:Hlt; [done|]. apply Z.ltb_ge in Hlt. lengths.
Qed.

(** While the invariant holds some goroutine can move until the caller
    has returned. *)
Lemma invariant_progress size target st :
  0 < size → invariant size target st → finished st = false →
  is_Some (scheduled size false st).
Proof.
  intros Hsize Hinv Hfin.
  pose proof (invariant_send _ _ _ Hsize Hinv) as Hsend.
  destruct Hinv as [Ht Hl Hr Hf]. crush_state st.
  assert (Hz : (size =? 0) = false) by (apply Z.eqb_neq; lia).
  unfold flagsAgree, finished, scheduled in *. simpl in *.
  destruct Hf as (Hc1 & Hc2 & Hc3 & Hnp & Hret & Hdr).
  destruct (workerStep size (mkState mp wp _ _ _ m)) eqn:Hw; [done|].
  destruct mp as [[|[x y] p]|y p| | | |]; simpl in *; try done.
  unfold mainStep. simpl. destruct b3; [|done].
  destruct c3; [done|]. exfalso.
  unfold workerStep in Hw. simpl in Hw. rewrite Hz in Hw.
  destruct wp; simplify_eq; repeat case_match; simplify_eq.
  match goal with H : (_ <? _) = false |- _ => apply Z.ltb_ge in H end.
  unfold len in *. simpl in *. lia.
Qed.

Lemma invariant_returned size target st :
  invariant size target st → mainPc st = MReturned →
  computedEntries st = target ∧ workerPc st = WExited.
Proof.
  intros [Ht Hl Hr Hf] Hret. crush_state st.
  unfold flagsAgree, outstanding, firstStream, secondStream in *. simpl in *.
  subst mp. destruct Hf as (Hc1 & Hc2 & Hc3 & Hnp & [-> ->] & [_ ->]).
  simpl in *. destruct b2; [|done].
  rewrite zip_with_nil in Ht. simpl in Ht. by simplify_eq.
Qed.

Lemma potential_finished st :
  potential st = 0%nat → finished st = true.
Proof.
  crush_state st. unfold potential, finished. simpl.
  destruct mp; simpl; lia || done.
Qed.

Lemma scheduled_step size fails st st' :
  scheduled size fails st = Some st' → step size fails st st'.
Proof.
  unfold scheduled. destruct (workerStep size st) eqn:Hw.
  - intros [= <-]. by exists Worker.
  - intros Hm. by exists Caller.
Qed.

(** The schedule of [run] is one of the schedules. *)
Lemma run_rtc size fails fuel st :
  rtc (step size fails) st (run size fails fuel st).
Proof.
  revert st. induction fuel as [|fuel IH]; intros st; simpl; [done|].
  destruct (finished st); [done|].
  destruct (scheduled size fails st) as [st'|] eqn:Hs; [|done].
  eapply rtc_l; [by apply scheduled_step|]. apply IH.
Qed.

(** [run] takes [runLength] steps. *)
Lemma run_nsteps size fails fuel st :
  nsteps (step size fails) (runLength size fails fuel st) st
         (run size fails fuel st).
Proof.
  revert st. induction fuel as [|fuel IH]; intros st; simpl;
    [constructor|].
  destruct (finished st); [constructor|].
  destruct (scheduled size fails st) as [st'|] eqn:Hs; [|constructor].
  eapply nsteps_l; [by apply scheduled_step|]. apply IH.
Qed.

(** With the invariant, [run] on enough fuel ends in the return. *)
Lemma run_returns size target fuel st :
  0 < size → invariant size target st → (potential st ≤ fuel)%nat →
  mainPc (run size false fuel st) = MReturned.
Proof.
  intros Hsize. revert st. induction fuel as [|fuel IH]; intros st Hinv Hfuel.
  - assert (Hfin : finished st = true) by (apply potential_finished; lia).
    simpl. destruct Hinv as [_ _ _ (_ & _ & _ & Hnp & _)].
    unfold finished in Hfin. by destruct (mainPc st).
  - simpl. destruct (finished st) eqn:Hfin.
    + destruct Hinv as [_ _ _ (_ & _ & _ & Hnp & _)].
      unfold finished in Hfin. by destruct (mainPc st).
    + destruct (invariant_progress _ _ _ Hsize Hinv Hfin) as [st' Hst'].
      rewrite Hst'. apply scheduled_step in Hst'.
      apply IH; [by eapply invariant_step|].
      apply step_potential in Hst'. lia.
Qed.

(** No schedule takes more steps than the potential. *)
Lemma nsteps_potential size fails k st st' :
  nsteps (step size fails) k st st' → (k + potential st' ≤ potential st)%nat.
Proof.
  induction 1 as [|k st st1 st' Hstep _ IH]; [lia|].
  apply step_potential in Hstep. lia.
Qed.

(** ** The assembler *)

Lemma accumulate_spec r c m e :
  grid r c m → inGrid r c e →
  ∃ m', accumulate m e = Some m' ∧ grid r c m'
        ∧ ∀ i k, entry m' i k
                 = if decide (RowIndex e = Z.of_nat i ∧ ColIndex e = Z.of_nat k)
                   then add (entry m i k) (Value e) else entry m i k.
Proof.
  intros [Hlen Hrows] [[Hr0 Hr1] [Hc0 Hc1]].
  destruct e as [ri ci v]. simpl in *.
  destruct (lookup_lt_is_Some_2 m (Z.to_nat ri)) as [row Hrow]; [lia|].
  assert (Hrowlen : length row = c).
  { by eapply (Forall_lookup_1 _ _ _ _ Hrows). }
  destruct (lookup_lt_is_Some_2 row (Z.to_nat ci)) as [old Hold]; [lia|].
  unfold accumulate, index. simpl.
  rewrite (proj2 (Z.ltb_ge ri 0)), (proj2 (Z.ltb_ge ci 0)) by lia.
  rewrite Hrow. simpl. rewrite Hold. simpl.
  eexists. split; [done|]. split.
  - split; [by rewrite length_insert|].
    apply Forall_insert; [done|]. by rewrite length_insert.
  - intros i k. unfold entry.
    destruct (decide (Z.to_nat ri = i)) as [<-|Hi].
    + rewrite list_lookup_insert_eq by lia. rewrite Hrow. simpl.
      destruct (decide (Z.to_nat ci = k)) as [<-|Hk].
      * rewrite list_lookup_insert_eq by lia. rewrite Hold. simpl.
        rewrite decide_True by lia. done.
      * rewrite list_lookup_insert_ne by done.
        rewrite decide_False by lia. done.
    + rewrite list_lookup_insert_ne by done.
      rewrite decide_False by lia. done.
Qed.

Lemma accumulateAll_spec r c es : ∀ m,
  grid r c m → Forall (inGrid r c) es →
  ∃ m', accumulateAll es m = Some m' ∧ grid r c m'
        ∧ ∀ i k, entry m' i k = contribution es i k (entry m i k).
Proof.
  induction es as [|e es IH]; intros m Hm Hes.
  - exists m. done.
  - apply Forall_cons in Hes as [He Hes].
    destruct (accumulate_spec _ _ _ _ Hm He) as (m1 & Hacc & Hm1 & Hent).
    destruct (IH m1 Hm1 Hes) as (m' & Hall & Hm' & Hent').
    exists m'. simpl. rewrite Hacc. simpl. split_and!; [done..|].
    intros i k. rewrite Hent', Hent. done.
Qed.

(** The assembler keeps the shape of the grid it fills, whatever it is
    sent. *)
Lemma accumulate_lengths m e m' :
  accumulate m e = Some m' → length <$> m' = length <$> m.
Proof.
  unfold accumulate, index. intros H.
  destruct (RowIndex e <? 0); [done|].
  destruct (m !! Z.to_nat (RowIndex e)) as [row|] eqn:Hrow; [|done].
  simpl in H. destruct (ColIndex e <? 0); [done|].
  destruct (row !! Z.to_nat (ColIndex e)) as [old|] eqn:Hold; [|done].
  simpl in H. simplify_eq.
  rewrite list_fmap_insert, length_insert.
  apply list_insert_id. by rewrite list_lookup_fmap, Hrow.
Qed.

Lemma grid_ext r c m1 m2 :
  grid r c m1 → grid r c m2 →
  (∀ i k, (i < r)%nat → (k < c)%nat → entry m1 i k = entry m2 i k) →
  m1 = m2.
Proof.
  intros [Hl1 Hr1] [Hl2 Hr2] Hent.
  apply list_eq_same_length with r; [done..|].
  intros i row1 row2 Hi H1 H2.
  pose proof (Forall_lookup_1 _ _ _ _ Hr1 H1) as Hrl1.
  pose proof (Forall_lookup_1 _ _ _ _ Hr2 H2) as Hrl2.
  simpl in *.
  apply list_eq_same_length with c; [done..|].
  intros k v1 v2 Hk Hv1 Hv2.
  specialize (Hent i k Hi Hk). unfold entry in Hent.
  rewrite H1, H2 in Hent. simpl in Hent. rewrite Hv1, Hv2 in Hent. done.
Qed.

(** ** The encoder on rectangular operands *)

Lemma contribution_app es1 es2 i k sum :
  contribution (es1 ++ es2) i k sum
  = contribution es2 i k (contribution es1 i k sum).
Proof. unfold contribution. apply foldl_app. Qed.

Lemma products_app p1 p2 : products (p1 ++ p2) = products p1 ++ products p2.
Proof. unfold products. apply fmap_app. Qed.

Lemma contribution_cons e es i k sum :
  contribution (e :: es) i k sum
  = contribution es i k
      (if decide (RowIndex e = Z.of_nat i ∧ ColIndex e = Z.of_nat k)
       then add sum (Value e) else sum).
Proof. done. Qed.

Lemma products_cons p ps : products (p :: ps) = product p.1 p.2 :: products ps.
Proof. done. Qed.

Lemma inner_inGrid r c i j firstValue : ∀ row k,
  (i < r)%nat → (k + length row ≤ c)%nat →
  Forall (inGrid r c) (products (encodeInner i j firstValue k row)).
Proof.
  induction row as [|secondValue row IH]; intros k Hi Hk; simpl in *.
  - constructor.
  - constructor; [|apply IH; lia].
    unfold inGrid. simpl. lia.
Qed.

Lemma inner_contribution i j firstValue : ∀ row k i' k' sum,
  contribution (products (encodeInner i j firstValue k row)) i' k' sum
  = if decide (i = i' ∧ (k ≤ k')%nat)
    then match row !! (k' - k)%nat with
         | Some secondValue => add sum (mul firstValue secondValue)
         | None => sum
         end
    else sum.
Proof.
  induction row as [|secondValue row IH]; intros k i' k' sum.
  - simpl. by case_decide.
  - cbn [encodeInner]. rewrite products_cons, contribution_cons, IH. simpl.
    repeat case_decide; try lia; try done.
    + replace (k' - k)%nat with (S (k' - S k)) by lia. done.
    + replace (k' - k)%nat with 0%nat by lia. done.
Qed.

Section Rectangular.

(** The right operand: [r] rows of [c] entries each. *)
Variables (b : list (list Z)) (r c : nat).
Hypothesis b_grid : grid r c b.

Lemma row_inGrid n i : ∀ row j,
  (i < n)%nat → (j + length row ≤ r)%nat →
  (encodeRow b i j row).2 = false
  ∧ Forall (inGrid n c) (products (encodeRow b i j row).1).
Proof.
  destruct b_grid as [Hlen Hrows].
  induction row as [|firstValue row IH]; intros j Hi Hj; simpl in *.
  - split; [done|constructor].
  - destruct (lookup_lt_is_Some_2 b j) as [secondRow Hsr]; [lia|].
    rewrite Hsr. destruct (IH (S j)) as [Hf Hg]; [done|lia|].
    destruct (encodeRow b i (S j) row) as [rest fails]. simpl in *.
    split; [done|]. rewrite products_app. apply Forall_app. split; [|done].
    apply inner_inGrid; [done|].
    pose proof (Forall_lookup_1 _ _ _ _ Hrows Hsr) as Hl. simpl in Hl. lia.
Qed.

(** One row of the left operand feeds cell [(i, k)] with the products
    along the row, in the order of the contraction index. *)
Lemma row_contribution i (full : list Z) i' k : ∀ (row : list Z) j sum,
  (j + length row ≤ r)%nat → (k < c)%nat →
  (∀ t, row !! t = full !! (j + t)%nat) →
  contribution (products (encodeRow b i j row).1) i' k sum
  = if decide (i = i')
    then foldl (λ sum t, add sum (mul (default 0 (full !! t)) (entry b t k)))
               sum (seq j (length row))
    else sum.
Proof.
  destruct b_grid as [Hlen Hrows].
  induction row as [|firstValue row IH]; intros j sum Hj Hk Hfull; simpl in *.
  - by case_decide.
  - destruct (lookup_lt_is_Some_2 b j) as [secondRow Hsr]; [lia|].
    rewrite Hsr.
    specialize (IH (S j)).
    destruct (encodeRow b i (S j) row) as [rest fails]. simpl in *.
    rewrite products_app, contribution_app, inner_contribution.
    rewrite IH; [|lia|done|]; last first.
    { intros t. specialize (Hfull (S t)). simpl in Hfull.
      rewrite Hfull. f_equal. lia. }
    pose proof (Forall_lookup_1 _ _ _ _ Hrows Hsr) as Hl. simpl in Hl.
    destruct (lookup_lt_is_Some_2 secondRow k) as [secondValue Hsv]; [lia|].
    rewrite Nat.sub_0_r, Hsv.
    destruct (decide (i = i')) as [<-|Hi].
    + rewrite decide_True by lia.
      specialize (Hfull 0%nat). rewrite Nat.add_0_r in Hfull.
      rewrite <- Hfull. simpl. unfold entry. rewrite Hsr. simpl.
      rewrite Hsv. done.
    + rewrite decide_False by lia. done.
Qed.

Lemma rows_inGrid n : ∀ rows i,
  (i + length rows ≤ n)%nat →
  Forall (λ row, (length row ≤ r)%nat) rows →
  (encodeRows b i rows).2 = false
  ∧ Forall (inGrid n c) (products (encodeRows b i rows).1).
Proof.
  induction rows as [|row rows IH]; intros i Hi Hrows; simpl in *.
  - split; [done|constructor].
  - apply Forall_cons in Hrows as [Hrow Hrows].
    destruct (row_inGrid n i row 0) as [Hf Hg]; [lia|lia|].
    destruct (encodeRow b i 0 row) as [here fails]. simpl in *. subst fails.
    destruct (IH (S i)) as [Hf' Hg']; [lia|done|].
    destruct (encodeRows b (S i) rows) as [rest fails']. simpl in *.
    split; [done|]. rewrite products_app. by apply Forall_app.
Qed.

Lemma rows_contribution (a : list (list Z)) n i' k :
  ∀ (rows : list (list Z)) i sum,
  Forall (λ row, length row = n) rows → (n ≤ r)%nat → (k < c)%nat →
  (∀ t, rows !! t = a !! (i + t)%nat) →
  contribution (products (encodeRows b i rows).1) i' k sum
  = if decide (i ≤ i' < i + length rows)%nat
    then foldl (λ sum t, add sum (mul (entry a i' t) (entry b t k)))
               sum (seq 0 n)
    else sum.
Proof.
  induction rows as [|row rows IH]; intros i sum Hrows Hn Hk Ha; simpl in *.
  - rewrite decide_False by lia. done.
  - apply Forall_cons in Hrows as [Hrow Hrows].
    destruct (row_inGrid (S i) i row 0) as [Hf _]; [lia|lia|].
    pose proof (row_contribution i row i' k row 0 sum) as Hc.
    destruct (encodeRow b i 0 row) as [here fails]. simpl in *. subst fails.
    specialize (IH (S i)).
    destruct (encodeRows b (S i) rows) as [rest fails']. simpl in *.
    rewrite products_app, contribution_app, Hc by (done || lia).
    rewrite IH; [|done..|]; last first.
    { intros t. specialize (Ha (S t)). simpl in Ha.
      rewrite Ha. f_equal. lia. }
    destruct (decide (i = i')) as [<-|Hi].
    + rewrite decide_False by lia. rewrite decide_True by lia.
      rewrite Hrow. unfold entry.
      specialize (Ha 0%nat). rewrite Nat.add_0_r in Ha. simpl in Ha.
      rewrite <- Ha. done.
    + repeat case_decide; (done || lia).
Qed.

End Rectangular.

Lemma inner_length i j firstValue : ∀ row k,
  length (encodeInner i j firstValue k row) = length row.
Proof. induction row; intros k; simpl; [done|]. by rewrite IHrow. Qed.

Lemma row_length b r c i : ∀ (row : list Z) j,
  grid r c b → (j + length row ≤ r)%nat →
  length (encodeRow b i j row).1 = (length row * c)%nat.
Proof.
  intros row j [Hlen Hrows]. revert j.
  induction row as [|firstValue row IH]; intros j Hj; simpl in *; [done|].
  destruct (lookup_lt_is_Some_2 b j) as [secondRow Hsr]; [lia|].
  rewrite Hsr. specialize (IH (S j)).
  destruct (encodeRow b i (S j) row) as [rest fails]. simpl in *.
  rewrite length_app, inner_length, IH by lia.
  pose proof (Forall_lookup_1 _ _ _ _ Hrows Hsr) as Hl. simpl in Hl. lia.
Qed.

Lemma rows_length b r c n : ∀ (rows : list (list Z)) i,
  grid r c b → Forall (λ row, length row = n) rows → (n ≤ r)%nat →
  length (encodeRows b i rows).1 = (length rows * (n * c))%nat.
Proof.
  intros rows i Hb. revert i.
  induction rows as [|row rows IH]; intros i Hrows Hn; simpl in *; [done|].
  apply Forall_cons in Hrows as [Hrow Hrows].
  destruct (row_inGrid b r c Hb (S i) i row 0) as [Hf _]; [lia|lia|].
  pose proof (row_length b r c i row 0 Hb) as Hl.
  destruct (encodeRow b i 0 row) as [here fails]. simpl in *. subst fails.
  specialize (IH (S i)).
  destruct (encodeRows b (S i) rows) as [rest fails']. simpl in *.
  rewrite length_app, Hl, IH by (done || lia). lia.
Qed.

(** ** The grids involved *)

Lemma zeroEntries_grid rows columns :
  grid (Z.to_nat rows) (Z.to_nat columns) (zeroEntries rows columns).
Proof.
  unfold zeroEntries. split; [by rewrite length_replicate|].
  apply Forall_replicate. by rewrite length_replicate.
Qed.

Lemma zeroEntries_entry rows columns i k :
  entry (zeroEntries rows columns) i k = 0.
Proof.
  unfold entry, zeroEntries.
  destruct (replicate _ _ !! i) as [row|] eqn:Hrow; [|done].
  apply lookup_replicate in Hrow as [-> _]. simpl.
  destruct (replicate _ _ !! k) as [v|] eqn:Hv; [|done].
  by apply lookup_replicate in Hv as [-> _].
Qed.

Lemma serialProduct_grid a b n : grid n n (serialProduct a b n).
Proof.
  unfold serialProduct. split.
  - by rewrite length_fmap, length_seq.
  - apply Forall_fmap, Forall_forall. intros i _. simpl.
    by rewrite length_fmap, length_seq.
Qed.

Lemma serialProduct_entry a b n i k :
  (i < n)%nat → (k < n)%nat →
  entry (serialProduct a b n) i k = serialEntry a b n i k.
Proof.
  intros Hi Hk. unfold entry, serialProduct.
  rewrite list_lookup_fmap, lookup_seq_lt by done. simpl.
  rewrite list_lookup_fmap, lookup_seq_lt by done. done.
Qed.

Lemma shaped_grid rows columns m :
  shaped rows columns m →
  grid (Z.to_nat rows) (Z.to_nat columns) (Entries m).
Proof.
  intros (_ & _ & Hlen & Hrows). unfold len in *. split; [lia|].
  eapply Forall_impl; [exact Hrows|]. intros row Hrow. simpl in *. lia.
Qed.

(** ** [Multiply] on square operands *)

Lemma encode_square n A B :
  0 < n → square n A → square n B →
  (encode A B).2 = false
  ∧ len (encode A B).1 = n * n * n
  ∧ accumulateAll (products (encode A B).1) (zeroEntries n n)
    = Some (serialProduct (Entries A) (Entries B) (Z.to_nat n)).
Proof.
  intros Hn HA HB.
  pose proof (shaped_grid _ _ _ HA) as [HAl HAr].
  pose proof (shaped_grid _ _ _ HB) as Hb.
  set (N := Z.to_nat n) in *. unfold encode.
  destruct (rows_inGrid (Entries B) N N Hb N (Entries A) 0) as [Hf Hg].
  { lia. }
  { eapply Forall_impl; [exact HAr|]. intros row Hrow. simpl in *. lia. }
  split; [done|]. split.
  { unfold len. rewrite (rows_length (Entries B) N N N) by done.
    rewrite HAl. unfold N. lia. }
  destruct (accumulateAll_spec N N _ (zeroEntries n n)
              (zeroEntries_grid n n) Hg) as (m' & Hacc & Hm' & Hent).
  rewrite Hacc. f_equal.
  apply (grid_ext N N); [done|apply serialProduct_grid|].
  intros i k Hi Hk.
  rewrite Hent, zeroEntries_entry, serialProduct_entry by done.
  rewrite (rows_contribution (Entries B) N N Hb (Entries A) N) by done.
  rewrite decide_True by lia. done.
Qed.

Lemma NewMatrix_zero rows columns :
  0 < rows → 0 < columns →
  makeslice sliceSize rows = true → makeslice intSize columns = true →
  NewMatrix rows columns []
  = Returned (mkMatrix rows columns (zeroEntries rows columns), None).
Proof.
  intros Hr Hc Hsr Hsc. unfold NewMatrix.
  rewrite (proj2 (Z.leb_gt rows 0)), (proj2 (Z.leb_gt columns 0)) by done.
  by rewrite Hsr, Hsc.
Qed.

(** The invariant holds when [Multiply] starts the pipeline on square
    operands, for the target that the serial product names. *)
Lemma square_invariant n A B :
  0 < n → chansFit n → square n A → square n B →
  invariant (mul (mul n n) n)
            (serialProduct (Entries A) (Entries B) (Z.to_nat n))
            (initial (encode A B).1 (zeroEntries n n)).
Proof.
  intros Hn Hfit HA HB.
  destruct (encode_square n A B Hn HA HB) as (_ & Hlen & Hacc).
  apply invariant_initial; [done|].
  rewrite cube_size by done. lia.
Qed.

Lemma cube_positive n : 0 < n → chansFit n → 0 < mul (mul n n) n.
Proof. intros Hn Hfit. rewrite cube_size by done. nia. Qed.

(** The cube is the capacity asked for whenever it is an [int]. *)
Lemma cube_int n : 0 < n → cubeFits n → mul (mul n n) n = n * n * n.
Proof.
  unfold cubeFits, mul. intros Hn Hc.
  assert (n * n ≤ n * n * n) by nia.
  assert (Hmax : max_int = 2 ^ 63 - 1) by reflexivity.
  assert (Hmin : min_int = - 2 ^ 63) by reflexivity.
  rewrite (wrap_small (n * n)) by nia.
  rewrite wrap_small by nia. done.
Qed.

(** [Multiply] panics in [make(chan Element, size)] when the runtime
    refuses the capacity, after the dimension check and [NewMatrix]. *)
Lemma Multiply_makechan_refused r c self other :
  Rows self = r → Columns self = c → Columns other = r →
  0 < r → 0 < c →
  makeslice sliceSize r = true → makeslice intSize c = true →
  makechan elementSize (mul (mul r r) r) = false →
  Multiply self other = Panicked ChanSizeOutOfRange.
Proof.
  intros Hr Hc Hco Hrpos Hcpos Hsr Hsc Hch.
  unfold Multiply. rewrite Hr, Hc, Hco, Z.eqb_refl. cbn [negb].
  rewrite NewMatrix_zero by done. cbn [Rows Columns Entries].
  by rewrite Hch.
Qed.

(** Beyond the sides whose channels can be made, as long as the cube of
    the side is an [int], [Multiply] panics, in [make] at the latest. *)
Lemma Multiply_beyond n self other :
  0 < n → Rows self = n → cubeFits n → ¬ chansFit n →
  ∃ e, Multiply self other = Panicked e.
Proof.
  intros Hn Hr Hcube Hno. unfold Multiply.
  destruct (negb _); [eauto|].
  unfold NewMatrix. rewrite Hr, (proj2 (Z.leb_gt n 0)) by done. cbn [orb].
  destruct (Columns self <=? 0); [eauto|].
  destruct (makeslice _ _ && makeslice _ _); [|eauto].
  cbn [Rows Columns Entries]. rewrite cube_int by done.
  assert (makechan elementSize (n * n * n) = false) as ->; [|eauto].
  unfold makechan. apply andb_false_iff. right. apply Z.leb_gt.
  unfold chansFit in Hno. lia.
Qed.

(** The square matrix of zeros is square. *)
Lemma zeroSquare_square n : 0 < n → square n (zeroSquare n).
Proof.
  intros Hn. unfold zeroSquare. split_and!; [done..| |].
  - cbn [Entries]. unfold zeroEntries, len. rewrite length_replicate. lia.
  - cbn [Entries]. unfold zeroEntries. apply Forall_replicate.
    unfold len. rewrite length_replicate. lia.
Qed.

(** Once the dimension check has passed and the result and the channels
    are made, the outcome of [Multiply] is that of the pipeline. *)
Lemma Multiply_pipeline r c self other :
  Rows self = r → Columns self = c → Columns other = r →
  0 < r → 0 < c →
  makeslice sliceSize r = true → makeslice intSize c = true →
  makechan elementSize (mul (mul r r) r) = true →
  Multiply self other
  = let st0 := initial (encode self other).1 (zeroEntries r c) in
    let st := run (mul (mul r r) r) (encode self other).2 (potential st0) st0 in
    match mainPc st with
    | MReturned => Returned (mkMatrix r c (computedEntries st))
    | MPanicked => Panicked IndexOutOfRange
    | _ => Deadlocked
    end.
Proof.
  intros Hr Hc Hco Hrpos Hcpos Hsr Hsc Hch.
  unfold Multiply. rewrite Hr, Hc, Hco, Z.eqb_refl. cbn [negb].
  rewrite NewMatrix_zero by done. cbn [Rows Columns Entries].
  rewrite Hch. cbn [negb].
  by destruct (encode self other) as [pairs fails].
Qed.

Lemma Multiply_square n A B :
  0 < n → chansFit n → square n A → square n B →
  Multiply A B
  = Returned (mkMatrix n n
                (serialProduct (Entries A) (Entries B) (Z.to_nat n))).
Proof.
  intros Hn Hfit HA HB.
  pose proof (square_invariant n A B Hn Hfit HA HB) as Hinv.
  pose proof (cube_positive n Hn Hfit) as Hsize.
  destruct (encode_square n A B Hn HA HB) as (Hf & _ & _).
  destruct HA as (HAr & HAc & _). destruct HB as (HBr & HBc & _).
  destruct (chansFit_makeslice n n Hn Hfit) as [Hsr Hsc]; [lia|].
  rewrite (Multiply_pipeline n n) by (done || by apply chansFit_makechan).
  cbn zeta.
  destruct (encode A B) as [pairs fails]. simpl in *. subst fails.
  set (st0 := initial pairs (zeroEntries n n)) in *.
  pose proof (run_returns _ _ (potential st0) st0 Hsize Hinv (le_n _)) as Hret.
  rewrite Hret.
  pose proof (invariant_rtc _ _ _ _ Hsize Hinv
                (run_rtc _ false (potential st0) st0)) as Hinv'.
  destruct (invariant_returned _ _ _ Hinv' Hret) as [-> _]. done.
Qed.

(** The serial reference is the contraction sum reduced to an [int]. *)
Lemma wrap_add_mul sum x y : add (wrap sum) (mul x y) = wrap (sum + x * y).
Proof.
  unfold add, mul, wrap. generalize (x * y). intros p. f_equal.
  replace ((sum + 2 ^ 63) `mod` 2 ^ 64 - 2 ^ 63
           + ((p + 2 ^ 63) `mod` 2 ^ 64 - 2 ^ 63) + 2 ^ 63)
    with ((sum + 2 ^ 63) `mod` 2 ^ 64
          + ((p + 2 ^ 63) `mod` 2 ^ 64 - 2 ^ 63)) by lia.
  rewrite Z.add_mod_idemp_l by done.
  replace (sum + 2 ^ 63 + ((p + 2 ^ 63) `mod` 2 ^ 64 - 2 ^ 63))
    with ((p + 2 ^ 63) `mod` 2 ^ 64 + sum) by lia.
  rewrite Z.add_mod_idemp_l by done. f_equal. lia.
Qed.

Lemma serial_fold a b i k : ∀ n j sum,
  foldl (λ sum j, add sum (mul (entry a i j) (entry b j k))) (wrap sum)
        (seq j n)
  = wrap (sum + foldr Z.add 0 ((λ j, entry a i j * entry b j k) <$> seq j n)).
Proof.
  induction n as [|n IH]; intros j sum; simpl.
  - f_equal. lia.
  - rewrite wrap_add_mul, IH. by rewrite Z.add_assoc.
Qed.

Lemma serialEntry_dot a b n i k : serialEntry a b n i k = wrap (dot a b n i k).
Proof. unfold serialEntry, dot. apply (serial_fold a b i k n 0%nat 0). Qed.

(** From any state of a run on square operands some schedule leads to the
    return. *)
Lemma invariant_completes size target st :
  0 < size → invariant size target st →
  ∃ st', rtc (step size false) st st' ∧ mainPc st' = MReturned.
Proof.
  intros Hsize Hinv. exists (run size false (potential st) st).
  split; [apply run_rtc|]. by eapply run_returns.
Qed.

Lemma multiplyRuns_invariant n A B st :
  0 < n → chansFit n → square n A → square n B →
  multiplyRuns A B st →
  invariant (mul (mul n n) n)
            (serialProduct (Entries A) (Entries B) (Z.to_nat n)) st.
Proof.
  intros Hn Hfit HA HB Hrun.
  pose proof (square_invariant n A B Hn Hfit HA HB) as Hinv.
  destruct (encode_square n A B Hn HA HB) as (Hf & _ & _).
  unfold multiplyRuns in Hrun. destruct HA as (HAr & HAc & _).
  rewrite HAr, HAc, Hf in Hrun.
  eapply invariant_rtc; [by apply cube_positive|done..].
Qed.

(** ** The claims about [Multiply] on square operands *)

(** C1.  For square [n]-by-[n] operands with [n > 0] and [n ≤ 22720],
    the sides whose channels of capacity [n * n * n] the runtime makes
    ([chansFit], see [chansFit_side]), [Multiply] returns a matrix whose entry
    [(i, k)] is the serially computed reference for that cell, which is
    the sum over [j] of [A[i][j] * B[j][k]] as an [int]; and every
    schedule of the two goroutines that brings the caller to the end
    of [Multiply] returns those same entries, such a schedule existing from
    every state that a run can be in. *)
Theorem multiply_matches_serial_reference n A B :
  0 < n → chansFit n → square n A → square n B →
  ∃ M,
    Multiply A B = Returned M
    ∧ (∀ i k, (i < Z.to_nat n)%nat → (k < Z.to_nat n)%nat →
         entry (Entries M) i k
         = serialEntry (Entries A) (Entries B) (Z.to_nat n) i k
         ∧ entry (Entries M) i k
           = wrap (dot (Entries A) (Entries B) (Z.to_nat n) i k))
    ∧ (∀ st, multiplyRuns A B st →
         (finished st = true →
            mainPc st = MReturned ∧ computedEntries st = Entries M)
         ∧ ∃ st', rtc (step (mul (mul n n) n) false) st st'
                  ∧ mainPc st' = MReturned
                  ∧ computedEntries st' = Entries M).
Proof.
  intros Hn Hfit HA HB.
  eexists. split; [by apply Multiply_square|]. simpl. split.
  - intros i k Hi Hk. rewrite serialProduct_entry by done.
    split; [done|apply serialEntry_dot].
  - intros st Hrun.
    pose proof (multiplyRuns_invariant n A B st Hn Hfit HA HB Hrun) as Hinv.
    pose proof (cube_positive n Hn Hfit) as Hsize.
    split.
    + intros Hfin.
      assert (Hret : mainPc st = MReturned).
      { destruct Hinv as [_ _ _ (_ & _ & _ & Hnp & _)].
        unfold finished in Hfin. by destruct (mainPc st). }
      split; [done|]. by destruct (invariant_returned _ _ _ Hinv Hret).
    + destruct (invariant_completes _ _ _ Hsize Hinv) as (st' & Hrtc & Hret).
      exists st'. split_and!; [done..|].
      pose proof (invariant_rtc _ _ _ _ Hsize Hinv Hrtc) as Hinv'.
      by destruct (invariant_returned _ _ _ Hinv' Hret).
Qed.

(** C2.  For square [n]-by-[n] operands with [n > 0] and [n ≤ 22720],
    the sides whose channels the runtime makes ([chansFit]), a call of
    [Multiply] returns, and it cannot deadlock: the channels are made, with
    a capacity that is at least the number of elements sent on each of
    them, so in every state of every run the encoder's pending send can
    proceed; as long as the caller has not finished some goroutine can
    move; when it has finished it has returned and the worker has exited;
    and no run is longer than the potential of the initial state. *)
Theorem multiply_runs_to_completion n A B :
  0 < n → chansFit n → square n A → square n B →
  let size := mul (mul (Rows A) (Rows A)) (Rows A) in
  let st0 := initial (encode A B).1 (zeroEntries (Rows A) (Columns A)) in
  (∃ M, Multiply A B = Returned M)
  ∧ makechan elementSize size = true
  ∧ (encode A B).2 = false
  ∧ len (encode A B).1 ≤ size
  ∧ (∀ st, multiplyRuns A B st →
       match mainPc st with
       | MSendFirst (_ :: _) | MSendSecond _ _ =>
           is_Some (mainStep size false st)
       | _ => True
       end
       ∧ (finished st = false → ∃ st', step size false st st')
       ∧ (finished st = true → mainPc st = MReturned ∧ workerPc st = WExited))
  ∧ (∀ k st, nsteps (step size false) k st0 st → (k ≤ potential st0)%nat).
Proof.
  intros Hn Hfit HA HB size st0.
  destruct (encode_square n A B Hn HA HB) as (Hf & Hlen & _).
  pose proof (cube_positive n Hn Hfit) as Hsize.
  assert (Hn' : Rows A = n) by (by destruct HA).
  subst size. rewrite Hn'.
  split; [eexists; by apply (Multiply_square n)|].
  split; [by apply chansFit_makechan|].
  split; [done|]. split; [rewrite cube_size by done; lia|]. split.
  - intros st Hrun.
    pose proof (multiplyRuns_invariant n A B st Hn Hfit HA HB Hrun) as Hinv.
    split; [by eapply invariant_send|]. split.
    + intros Hfin.
      destruct (invariant_progress _ _ _ Hsize Hinv Hfin) as [st' Hst'].
      exists st'. by apply scheduled_step.
    + intros Hfin.
      assert (Hret : mainPc st = MReturned).
      { destruct Hinv as [_ _ _ (_ & _ & _ & Hnp & _)].
        unfold finished in Hfin. by destruct (mainPc st). }
      split; [done|]. by destruct (invariant_returned _ _ _ Hinv Hret).
  - intros k st Hsteps. apply nsteps_potential in Hsteps. lia.
Qed.

(** ** Shapes *)

Lemma grid_shaped rows columns entries :
  0 ≤ rows → 0 ≤ columns →
  grid (Z.to_nat rows) (Z.to_nat columns) entries →
  shaped rows columns (mkMatrix rows columns entries).
Proof.
  intros Hr Hc [Hlen Hrows]. unfold shaped, len. simpl.
  split_and!; [done|done|lia|].
  eapply Forall_impl; [exact Hrows|]. intros row Hrow. simpl in *. lia.
Qed.

Lemma Multiply_square_shape n A B :
  0 < n → chansFit n → square n A → square n B →
  ∃ M, Multiply A B = Returned M ∧ square n M.
Proof.
  intros Hn Hfit HA HB. eexists. split; [by apply Multiply_square|].
  apply grid_shaped; [lia..|]. apply serialProduct_grid.
Qed.

(** ** [Exponentiate] *)

(** One more pass of the loop is one more [Multiply] by the receiver. *)
Lemma exponentiateLoop_S initialMatrix : ∀ iterations currentMatrix calls,
  (exponentiateLoop (S iterations) initialMatrix currentMatrix calls).1
  = bind (exponentiateLoop iterations initialMatrix currentMatrix calls).1
         (Multiply initialMatrix).
Proof.
  induction iterations as [|iterations IH]; intros currentMatrix calls.
  - simpl. by destruct (Multiply initialMatrix currentMatrix).
  - cbn [exponentiateLoop] in *.
    destruct (Multiply initialMatrix currentMatrix) as [m| |]; [|done..].
    apply IH.
Qed.

Lemma exponentiateLoop_square n A :
  0 < n → chansFit n → square n A →
  ∀ iterations currentMatrix calls,
    square n currentMatrix →
    ∃ M calls',
      exponentiateLoop iterations A currentMatrix calls
      = (Returned M, calls ++ calls')
      ∧ square n M
      ∧ length calls' = iterations
      ∧ Forall (λ call, call.1 = A) calls'.
Proof.
  intros Hn Hfit HA.
  induction iterations as [|iterations IH]; intros currentMatrix calls Hcur.
  - exists currentMatrix, []. simpl. by rewrite app_nil_r.
  - destruct (Multiply_square_shape n A currentMatrix) as (m & Hm & Hsq);
      [done..|].
    destruct (IH m (calls ++ [(A, currentMatrix)]) Hsq)
      as (M & calls' & Hloop & HM & Hlen & Hcalls).
    exists M, ((A, currentMatrix) :: calls').
    cbn [exponentiateLoop]. rewrite Hm, Hloop, <- (assoc_L (++)). simpl.
    split_and!; [done|done|lia|]. by constructor.
Qed.

Lemma Exponentiate_square n A power :
  0 < n → chansFit n → square n A → 1 ≤ power →
  ∃ M, Exponentiate A power = Returned M ∧ square n M
       ∧ len (multiplyCalls A power) = power - 1
       ∧ Forall (λ call, call.1 = A) (multiplyCalls A power).
Proof.
  intros Hn Hfit HA Hp.
  destruct (exponentiateLoop_square n A Hn Hfit HA
              (Z.to_nat (power - 1)) A [] HA)
    as (M & calls' & Hloop & HM & Hlen & Hcalls).
  exists M. unfold Exponentiate, multiplyCalls, exponentiateLogged.
  rewrite (proj2 (Z.leb_gt power 0)) by lia. rewrite Hloop. simpl.
  split_and!; [done..| |done]. unfold len. lia.
Qed.

Lemma Exponentiate_S A power :
  1 ≤ power →
  Exponentiate A (power + 1) = bind (Exponentiate A power) (Multiply A).
Proof.
  intros Hp. unfold Exponentiate, exponentiateLogged.
  rewrite !(proj2 (Z.leb_gt _ 0)) by lia.
  replace (Z.to_nat (power + 1 - 1)) with (S (Z.to_nat (power - 1))) by lia.
  apply exponentiateLoop_S.
Qed.

(** C10.  For a square [n]-by-[n] matrix with [n > 0] and [n ≤ 22720],
    the sides whose channels the runtime makes ([chansFit]), and a power
    of at least 1, what [Multiply]
    and [Exponentiate] return satisfies the Matrix invariant with the same
    side: [Rows = n], [Columns = n], [n] rows of entries, each of [n]
    entries. *)
Theorem shape_is_preserved n A B power :
  0 < n → chansFit n → square n A → square n B → 1 ≤ power →
  (∃ M, Multiply A B = Returned M
        ∧ Rows M = n ∧ Columns M = n ∧ len (Entries M) = n
        ∧ Forall (λ row, len row = n) (Entries M))
  ∧ (∃ M, Exponentiate A power = Returned M
          ∧ Rows M = n ∧ Columns M = n ∧ len (Entries M) = n
          ∧ Forall (λ row, len row = n) (Entries M)).
Proof.
  intros Hn Hfit HA HB Hp. split.
  - destruct (Multiply_square_shape n A B) as (M & HM & Hsq); [done..|].
    exists M. split; [done|]. exact Hsq.
  - destruct (Exponentiate_square n A power) as (M & HM & Hsq & _); [done..|].
    exists M. split; [done|]. exact Hsq.
Qed.

(** C5.  For a square matrix [A] of side [n > 0] with [n ≤ 22720], the
    sides whose channels the runtime makes ([chansFit]),
    [A.Exponentiate(1)] returns [A] itself,
    and for every [k ≥ 1] [A.Exponentiate(k+1)] is
    [A.Multiply(A.Exponentiate(k))]; [Exponentiate(k)] calls [Multiply]
    [k - 1] times, each time with the original matrix as the left
    operand. *)
Theorem exponentiate_left_multiplies n A :
  0 < n → chansFit n → square n A →
  Exponentiate A 1 = Returned A
  ∧ ∀ k, 1 ≤ k →
      ∃ M M',
        Exponentiate A k = Returned M
        ∧ Multiply A M = Returned M'
        ∧ Exponentiate A (k + 1) = Returned M'
        ∧ len (multiplyCalls A k) = k - 1
        ∧ Forall (λ call, call.1 = A) (multiplyCalls A k).
Proof.
  intros Hn Hfit HA. split; [done|]. intros k Hk.
  destruct (Exponentiate_square n A k) as (M & HM & Hsq & Hlen & Hcalls);
    [done..|].
  destruct (Multiply_square_shape n A M) as (M' & HM' & _); [done..|].
  exists M, M'. split_and!; [done..| |done|done].
  rewrite Exponentiate_S, HM by done. done.
Qed.

(** C8.  For every matrix and every power that is not positive,
    [Exponentiate] panics with the invalid-power error, and it has not
    called [Multiply]. *)
Theorem exponentiate_rejects_nonpositive_power A power :
  power ≤ 0 →
  Exponentiate A power = Panicked InvalidPowerError
  ∧ multiplyCalls A power = [].
Proof.
  intros Hp. unfold Exponentiate, multiplyCalls, exponentiateLogged.
  rewrite (proj2 (Z.leb_le power 0)) by done. done.
Qed.

(** C4.  For a square matrix [A] with [n > 0] rows and columns,
    [isGraphCyclic A] does what [A.Exponentiate(n).Trace() != 0] does, [n]
    being [A.Rows]: it panics or deadlocks when [A.Exponentiate(n)] does,
    and otherwise returns whether the trace of the matrix returned is not
    zero.  For [n ≤ 22720], the sides whose channels the runtime makes
    ([chansFit]), [A.Exponentiate(n)] returns, and so does
    [isGraphCyclic]. *)
Theorem isGraphCyclic_tests_trace n A :
  0 < n → square n A →
  Rows A = n
  ∧ isGraphCyclic A
    = bind (Exponentiate A n) (λ M, Returned (negb (Trace M =? 0)))
  ∧ (chansFit n →
     ∃ M, Exponentiate A n = Returned M
          ∧ isGraphCyclic A = Returned (negb (Trace M =? 0))).
Proof.
  intros Hn HA.
  assert (Hr : Rows A = n) by (by destruct HA).
  split; [done|]. split; [unfold isGraphCyclic; by rewrite Hr|].
  intros Hfit.
  destruct (Exponentiate_square n A n) as (M & HM & _); [done..|lia|].
  exists M. unfold isGraphCyclic. rewrite Hr, HM. done.
Qed.

(** ** [Multiply] on arbitrary operands *)

(** No step of either goroutine changes the shape of the grid under
    construction. *)
Lemma step_lengths size fails st st' :
  step size fails st st' →
  length <$> computedEntries st' = length <$> computedEntries st.
Proof.
  intros [g Hg]. crush_state st.
  destruct g; simpl in Hg; unfold mainStep, workerStep, assemble, decide_product in Hg;
    simpl in Hg;
    repeat (case_match; simplify_eq; simpl in * ); try done.
  all: by eapply accumulate_lengths.
Qed.

Lemma rtc_lengths size fails st st' :
  rtc (step size fails) st st' →
  length <$> computedEntries st' = length <$> computedEntries st.
Proof.
  induction 1 as [|st st1 st' Hstep _ IH]; [done|].
  rewrite IH. by eapply step_lengths.
Qed.

Lemma lengths_grid r c (m m' : list (list Z)) :
  length <$> m' = length <$> m → grid r c m → grid r c m'.
Proof.
  intros Heq [Hlen Hrows]. split.
  - by rewrite <- Hlen, <- (length_fmap length m'), Heq, length_fmap.
  - assert (H : Forall (λ l, l = c) (length <$> m')).
    { rewrite Heq. by apply Forall_fmap. }
    by apply Forall_fmap in H.
Qed.

Lemma Multiply_shape self secondMatrix M :
  Multiply self secondMatrix = Returned M →
  shaped (Rows self) (Columns self) M.
Proof.
  unfold Multiply. destruct (negb _); [done|].
  unfold NewMatrix.
  destruct (Rows self <=? 0) eqn:Hr; [done|].
  destruct (Columns self <=? 0) eqn:Hc; [done|].
  apply Z.leb_gt in Hr, Hc. cbn [orb].
  destruct (makeslice _ _ && makeslice _ _); [|done].
  cbn [Rows Columns Entries].
  destruct (negb (makechan _ _)); [done|].
  destruct (encode self secondMatrix) as [pairs fails].
  set (st0 := initial pairs _).
  pose proof (rtc_lengths _ _ _ _
                (run_rtc (mul (mul (Rows self) (Rows self)) (Rows self))
                   fails (potential st0) st0)) as Hlen.
  destruct (mainPc _); try done. intros [= <-].
  apply grid_shaped; [lia..|].
  eapply lengths_grid; [exact Hlen|]. apply zeroEntries_grid.
Qed.

(** Under every schedule the grid under construction keeps the shape
    [self.Rows] by [self.Columns]. *)
Lemma multiplyRuns_shape self secondMatrix st :
  multiplyRuns self secondMatrix st →
  grid (Z.to_nat (Rows self)) (Z.to_nat (Columns self)) (computedEntries st).
Proof.
  intros Hrun. apply rtc_lengths in Hrun.
  eapply lengths_grid; [exact Hrun|]. apply zeroEntries_grid.
Qed.

(** C6.  [self.Multiply(other)] panics with the incompatible-dimensions
    error exactly when [self.Rows] differs from [other.Columns], and what it
    returns, when it returns, has the shape [self.Rows] by
    [self.Columns]. *)
Theorem multiply_dimension_check self other :
  (Multiply self other = Panicked IncompatibleDimensionsError
   ↔ Rows self ≠ Columns other)
  ∧ ∀ M, Multiply self other = Returned M →
      Rows M = Rows self ∧ Columns M = Columns self
      ∧ len (Entries M) = Rows self
      ∧ Forall (λ row, len row = Columns self) (Entries M).
Proof.
  split; [|intros M HM; by apply (Multiply_shape self other)].
  unfold Multiply. destruct (Rows self =? Columns other) eqn:Heq; simpl.
  - apply Z.eqb_eq in Heq. split; [|done].
    unfold NewMatrix.
    destruct (Rows self <=? 0); [done|].
    destruct (Columns self <=? 0); [done|]. cbn [orb].
    destruct (makeslice _ _ && makeslice _ _); [|done].
    cbn [Rows Columns Entries].
    destruct (negb (makechan _ _)); [done|].
    destruct (encode self other) as [pairs fails].
    by destruct (mainPc _).
  - apply Z.eqb_neq in Heq. done.
Qed.

(** ** [NewMatrix] *)

Lemma NewMatrix_dimension_error rows columns entries :
  rows ≤ 0 ∨ columns ≤ 0 →
  NewMatrix rows columns entries
  = Returned (zeroMatrix, Some DimensionError).
Proof.
  intros H. unfold NewMatrix.
  destruct (rows <=? 0) eqn:Hr; [done|].
  destruct (columns <=? 0) eqn:Hc; [done|].
  apply Z.leb_gt in Hr, Hc. lia.
Qed.

(** What the shape check of [NewMatrix] looks at: the number of rows of
    the entries, and the length of their first row. *)
Lemma NewMatrix_entries rows columns entries0 more :
  0 < rows → 0 < columns →
  NewMatrix rows columns (entries0 :: more)
  = if decide (len entries0 = rows ∧ len <$> head entries0 = Some columns)
    then Returned (mkMatrix rows columns entries0, None)
    else Returned (zeroMatrix, Some ShapeMismatchError).
Proof.
  intros Hr Hc. unfold NewMatrix.
  rewrite (proj2 (Z.leb_gt rows 0)), (proj2 (Z.leb_gt columns 0)) by done.
  cbn [orb]. destruct entries0 as [|row0 rest].
  - rewrite decide_False; [by rewrite orb_true_r|]. by intros [_ ?].
  - destruct (len (row0 :: rest) =? rows) eqn:H1;
      destruct (len row0 =? columns) eqn:H2; cbn [negb orb];
      rewrite ?Z.eqb_eq, ?Z.eqb_neq in *.
    + rewrite decide_True; [done|]. split; [done|]. simpl. by f_equal.
    + rewrite decide_False; [done|]. intros [_ [= ?]]. done.
    + rewrite decide_False; [done|]. intros [? _]. done.
    + rewrite decide_False; [done|]. intros [? _]. done.
Qed.

(** C7 fails on the code.  With [rows = 2] and [columns = 2], entries whose
    second row has one element are accepted: [NewMatrix] returns no error
    and a matrix holding them, although an inner row's length differs from
    [columns]. *)
Theorem NewMatrix_accepts_ragged_entries :
  NewMatrix 2 2 [raggedEntries]
  = Returned (mkMatrix 2 2 raggedEntries, None)
  ∧ Exists (λ row, len row ≠ 2) raggedEntries.
Proof.
  split; [done|]. unfold raggedEntries.
  apply Exists_cons_tl, Exists_cons_hd. done.
Qed.

(** ** The driver *)

Lemma mainOnTable_never_warns table : Warned ∉ mainOnTable table.
Proof.
  unfold mainOnTable. rewrite Z.eqb_refl. simpl.
  destruct (NewMatrix _ _ _) as [[m [err|]]|e|].
  - by intros ?%list_elem_of_singleton.
  - intros [?|H]%elem_of_cons; [done|].
    destruct (isGraphCyclic m); by apply list_elem_of_singleton in H.
  - by intros ?%list_elem_of_singleton.
  - by intros ?%list_elem_of_singleton.
Qed.

Lemma mainOnTable_nonsquare r c table :
  rectangular r c table → (0 < r)%nat → r ≠ c →
  mainOnTable table = [Fatal ShapeMismatchError].
Proof.
  intros [Hlen Hrows] Hr Hne. unfold mainOnTable.
  rewrite Z.eqb_refl. simpl.
  rewrite NewMatrix_entries by (unfold len; lia).
  rewrite decide_False; [done|].
  intros [_ Hhead].
  destruct table as [|row table]; [done|].
  apply Forall_cons in Hrows as [Hrow _].
  injection Hhead as Hhead. unfold len in Hhead. lia.
Qed.

(** C9 fails on the code.  On the table of two records of three fields
    [main] prints no warning and stops at [log.Fatal] with the error that
    [NewMatrix] returned: the matrix is never handed to [isGraphCyclic]. *)
Theorem main_rejects_nonsquare_table :
  rectangular 2 3 wideTable
  ∧ mainOnTable wideTable = [Fatal ShapeMismatchError].
Proof.
  split; [|done]. split; [done|]. unfold wideTable. by repeat constructor.
Qed.

(** ** Cycle detection *)

Lemma spec_fixtures :
  isGraphCyclic threeCycle = Returned true
  ∧ isGraphCyclic threePath = Returned false.
Proof. split; by vm_compute. Qed.

(** C3 fails on the code.  The graph on three nodes with the edges 0 → 1
    and 1 → 0 has a cycle, and [isGraphCyclic] returns false on its 0/1
    adjacency matrix: the third power has closed walks of length exactly
    three on its diagonal, and this graph has none. *)
Theorem isGraphCyclic_misses_two_cycle :
  square 3 twoCycle ∧ binary twoCycle ∧ hasCycle twoCycle
  ∧ isGraphCyclic twoCycle = Returned false.
Proof.
  split_and!.
  - split_and!; [done..|]. by repeat constructor.
  - unfold binary, twoCycle. simpl.
    repeat first [apply Forall_nil_2 | apply Forall_cons_2]; lia.
  - exists [0; 1]%nat. split_and!.
    + apply NoDup_cons. split; [by intros ?%list_elem_of_singleton|].
      apply NoDup_singleton.
    + repeat constructor; simpl; lia.
    + done.
  - by vm_compute.
Qed.

(** ** What a positive verdict does establish *)

Lemma wrap_zero : wrap 0 = 0.
Proof. reflexivity. Qed.

Lemma entry_nonzero r c m i k :
  grid r c m → entry m i k ≠ 0 → (i < r)%nat ∧ (k < c)%nat.
Proof.
  intros [Hlen Hrows] Hne. unfold entry in Hne.
  destruct (m !! i) as [row|] eqn:Hrow; [|done]. simpl in Hne.
  destruct (row !! k) as [v|] eqn:Hv; [|done].
  apply lookup_lt_Some in Hrow as Hi, Hv.
  pose proof (Forall_lookup_1 _ _ _ _ Hrows Hrow) as Hl. simpl in Hl. lia.
Qed.

Lemma dot_nonzero a b n i k :
  dot a b n i k ≠ 0 →
  ∃ j, entry a i j ≠ 0 ∧ entry b j k ≠ 0.
Proof.
  unfold dot. generalize 0%nat.
  induction n as [|n IH]; intros j Hne; simpl in *; [done|].
  destruct (decide (entry a i j * entry b j k = 0)) as [Hz|Hnz].
  - apply (IH (S j)). by rewrite Hz, Z.add_0_l in Hne.
  - exists j. split; intros H0; apply Hnz; rewrite H0.
    + apply Z.mul_0_l.
    + apply Z.mul_0_r.
Qed.

(** Every non-zero entry of the matrix that the loop of [Exponentiate]
    holds after [q - 1] passes stands for a walk of [q] edges. *)
Lemma exponentiateLoop_walks n A :
  0 < n → chansFit n → square n A →
  ∀ iterations currentMatrix calls q,
    square n currentMatrix →
    (∀ i k, entry (Entries currentMatrix) i k ≠ 0 →
       ∃ nodes, length nodes = q ∧ walk A i nodes = true
                ∧ last nodes = Some k) →
    ∃ M,
      (exponentiateLoop iterations A currentMatrix calls).1 = Returned M
      ∧ ∀ i k, entry (Entries M) i k ≠ 0 →
          ∃ nodes, length nodes = (q + iterations)%nat
                   ∧ walk A i nodes = true ∧ last nodes = Some k.
Proof.
  intros Hn Hfit HA.
  induction iterations as [|iterations IH];
    intros currentMatrix calls q Hcur Hwalks.
  - exists currentMatrix. split; [done|].
    intros i k Hne. rewrite Nat.add_0_r. by apply Hwalks.
  - cbn [exponentiateLoop].
    rewrite (Multiply_square n A currentMatrix) by done.
    set (M1 := mkMatrix n n _).
    destruct (IH M1 (calls ++ [(A, currentMatrix)]) (S q))
      as (M & HM & HMwalks).
    { apply grid_shaped; [lia..|]. apply serialProduct_grid. }
    { intros i k Hne. simpl in Hne.
      destruct (entry_nonzero _ _ _ _ _ (serialProduct_grid _ _ _) Hne)
        as [Hi Hk].
      rewrite serialProduct_entry, serialEntry_dot in Hne by done.
      assert (Hdot : dot (Entries A) (Entries currentMatrix) (Z.to_nat n) i k
                     ≠ 0).
      { intros Hz. by rewrite Hz in Hne. }
      destruct (dot_nonzero _ _ _ _ _ Hdot) as (j & Hij & Hjk).
      destruct (Hwalks j k Hjk) as (nodes & Hlen & Hwalk & Hlast).
      exists (j :: nodes). split_and!.
      - simpl. by rewrite Hlen.
      - simpl. rewrite Hwalk, andb_true_r. unfold edge.
        by apply negb_true_iff, Z.eqb_neq.
      - by rewrite last_cons, Hlast. }
    exists M. split; [done|].
    intros i k Hne. destruct (HMwalks i k Hne) as (nodes & Hlen & ?).
    exists nodes. split; [lia|done].
Qed.

Lemma traceRow_zero i : ∀ (row : list Z) j,
  (∀ v, row !! (i - j)%nat = Some v → (j ≤ i)%nat → v = 0) →
  traceRow i j row 0 = 0.
Proof.
  induction row as [|value row IH]; intros j Hdiag; simpl; [done|].
  destruct (i =? j)%nat eqn:Hij.
  - apply Nat.eqb_eq in Hij as ->.
    rewrite (Hdiag value); [|by rewrite Nat.sub_diag|done].
    change (add 0 0) with 0. apply IH. intros v Hv Hle. lia.
  - apply Nat.eqb_neq in Hij. apply IH. intros v Hv Hle.
    apply (Hdiag v); [|lia].
    replace (i - j)%nat with (S (i - S j)) by lia. done.
Qed.

Lemma traceRows_zero (m : list (list Z)) : ∀ (rows : list (list Z)) i,
  (∀ t, rows !! t = m !! (i + t)%nat) →
  (∀ d, entry m d d = 0) →
  traceRows i rows 0 = 0.
Proof.
  induction rows as [|row rows IH]; intros i Hm Hdiag; simpl; [done|].
  rewrite traceRow_zero.
  - apply IH; [|done]. intros t. specialize (Hm (S t)). simpl in Hm.
    rewrite Hm. f_equal. lia.
  - intros v Hv _. rewrite Nat.sub_0_r in Hv.
    specialize (Hm 0%nat). rewrite Nat.add_0_r in Hm. simpl in Hm.
    specialize (Hdiag i). unfold entry in Hdiag.
    rewrite <- Hm in Hdiag. simpl in Hdiag. by rewrite Hv in Hdiag.
Qed.

Lemma Trace_nonzero M : Trace M ≠ 0 → ∃ d, entry (Entries M) d d ≠ 0.
Proof.
  intros Hne.
  destruct (decide (Forall (λ d, entry (Entries M) d d = 0)
                      (seq 0 (length (Entries M))))) as [Hall|Hex].
  - exfalso. apply Hne. unfold Trace.
    apply (traceRows_zero (Entries M)); [done|].
    intros d. destruct (decide (d < length (Entries M))%nat) as [Hd|Hd].
    + rewrite Forall_forall in Hall. apply Hall, elem_of_seq. lia.
    + unfold entry. by rewrite lookup_ge_None_2 by lia.
  - apply not_Forall_Exists in Hex; [|solve_decision].
    apply Exists_exists in Hex as (d & _ & Hd). by exists d.
Qed.

(** When [isGraphCyclic] returns true on a square matrix of side [n], the
    graph has a closed walk of exactly [n] edges. *)
Lemma isGraphCyclic_true_closed_walk n A :
  0 < n → chansFit n → square n A →
  isGraphCyclic A = Returned true →
  closedWalk A (Z.to_nat n).
Proof.
  intros Hn Hfit HA Hcyc.
  assert (Hr : Rows A = n) by (by destruct HA).
  destruct (exponentiateLoop_walks n A Hn Hfit HA
              (Z.to_nat (n - 1)) A [] 1%nat HA) as (M & HM & Hwalks).
  { intros i k Hne. exists [k]. split_and!; [done| |done].
    simpl. rewrite andb_true_r. unfold edge.
    by apply negb_true_iff, Z.eqb_neq. }
  unfold isGraphCyclic, Exponentiate, exponentiateLogged in Hcyc.
  rewrite Hr, (proj2 (Z.leb_gt n 0)), HM in Hcyc by done.
  simpl in Hcyc. injection Hcyc as Hcyc.
  apply negb_true_iff, Z.eqb_neq in Hcyc.
  destruct (Trace_nonzero M Hcyc) as (d & Hd).
  destruct (Hwalks d d Hd) as (nodes & Hlen & Hwalk & Hlast).
  exists d, nodes. split_and!; [lia|done..].
Qed.

(** ** The theorems at the fixtures *)

Lemma two_positive : 0 < 2.
Proof. reflexivity. Defined.

Lemma two_chansFit : chansFit 2.
Proof. unfold chansFit. by vm_compute. Defined.

Lemma fixtureLeft_square : square 2 fixtureLeft.
Proof.
  unfold square, shaped. split_and!; [reflexivity..|].
  repeat first [apply Forall_nil_2 | apply Forall_cons_2]; reflexivity.
Defined.

Lemma fixtureRight_square : square 2 fixtureRight.
Proof.
  unfold square, shaped. split_and!; [reflexivity..|].
  repeat first [apply Forall_nil_2 | apply Forall_cons_2]; reflexivity.
Defined.

Lemma multiply_matches_serial_reference_witness :
  (0 < 2 ∧ chansFit 2 ∧ square 2 fixtureLeft ∧ square 2 fixtureRight)
  ∧ ∃ M,
      Multiply fixtureLeft fixtureRight = Returned M
      ∧ (∀ i k, (i < Z.to_nat 2)%nat → (k < Z.to_nat 2)%nat →
           entry (Entries M) i k
           = serialEntry (Entries fixtureLeft) (Entries fixtureRight)
               (Z.to_nat 2) i k
           ∧ entry (Entries M) i k
             = wrap (dot (Entries fixtureLeft) (Entries fixtureRight)
                       (Z.to_nat 2) i k))
      ∧ (∀ st, multiplyRuns fixtureLeft fixtureRight st →
           (finished st = true →
              mainPc st = MReturned ∧ computedEntries st = Entries M)
           ∧ ∃ st', rtc (step (mul (mul 2 2) 2) false) st st'
                    ∧ mainPc st' = MReturned
                    ∧ computedEntries st' = Entries M).
Proof.
  split.
  - exact (conj two_positive
             (conj two_chansFit (conj fixtureLeft_square fixtureRight_square))).
  - exact (multiply_matches_serial_reference 2 fixtureLeft fixtureRight
             two_positive two_chansFit fixtureLeft_square fixtureRight_square).
Defined.

Lemma multiply_runs_to_completion_witness :
  (0 < 2 ∧ chansFit 2 ∧ square 2 fixtureLeft ∧ square 2 fixtureRight)
  ∧ let size := mul (mul (Rows fixtureLeft) (Rows fixtureLeft))
                    (Rows fixtureLeft) in
    let st0 := initial (encode fixtureLeft fixtureRight).1
                 (zeroEntries (Rows fixtureLeft) (Columns fixtureLeft)) in
    (∃ M, Multiply fixtureLeft fixtureRight = Returned M)
    ∧ makechan elementSize size = true
    ∧ (encode fixtureLeft fixtureRight).2 = false
    ∧ len (encode fixtureLeft fixtureRight).1 ≤ size
    ∧ (∀ st, multiplyRuns fixtureLeft fixtureRight st →
         match mainPc st with
         | MSendFirst (_ :: _) | MSendSecond _ _ =>
             is_Some (mainStep size false st)
         | _ => True
         end
         ∧ (finished st = false → ∃ st', step size false st st')
         ∧ (finished st = true →
              mainPc st = MReturned ∧ workerPc st = WExited))
    ∧ (∀ k st, nsteps (step size false) k st0 st → (k ≤ potential st0)%nat).
Proof.
  split.
  - exact (conj two_positive
             (conj two_chansFit (conj fixtureLeft_square fixtureRight_square))).
  - exact (multiply_runs_to_completion 2 fixtureLeft fixtureRight
             two_positive two_chansFit fixtureLeft_square fixtureRight_square).
Defined.

Lemma shape_is_preserved_witness :
  (0 < 2 ∧ chansFit 2 ∧ square 2 fixtureLeft ∧ square 2 fixtureRight
   ∧ 1 ≤ 3)
  ∧ (∃ M, Multiply fixtureLeft fixtureRight = Returned M
          ∧ Rows M = 2 ∧ Columns M = 2 ∧ len (Entries M) = 2
          ∧ Forall (λ row, len row = 2) (Entries M))
  ∧ (∃ M, Exponentiate fixtureLeft 3 = Returned M
          ∧ Rows M = 2 ∧ Columns M = 2 ∧ len (Entries M) = 2
          ∧ Forall (λ row, len row = 2) (Entries M)).
Proof.
  assert (H13 : 1 ≤ 3) by (by vm_compute).
  split.
  - exact (conj two_positive
             (conj two_chansFit
                (conj fixtureLeft_square (conj fixtureRight_square H13)))).
  - exact (shape_is_preserved 2 fixtureLeft fixtureRight 3
             two_positive two_chansFit fixtureLeft_square fixtureRight_square
             H13).
Defined.

Lemma exponentiate_left_multiplies_witness :
  (0 < 2 ∧ chansFit 2 ∧ square 2 fixtureLeft)
  ∧ Exponentiate fixtureLeft 1 = Returned fixtureLeft
  ∧ ∀ k, 1 ≤ k →
      ∃ M M',
        Exponentiate fixtureLeft k = Returned M
        ∧ Multiply fixtureLeft M = Returned M'
        ∧ Exponentiate fixtureLeft (k + 1) = Returned M'
        ∧ len (multiplyCalls fixtureLeft k) = k - 1
        ∧ Forall (λ call, call.1 = fixtureLeft) (multiplyCalls fixtureLeft k).
Proof.
  split.
  - exact (conj two_positive (conj two_chansFit fixtureLeft_square)).
  - exact (exponentiate_left_multiplies 2 fixtureLeft
             two_positive two_chansFit fixtureLeft_square).
Defined.

Lemma exponentiate_rejects_nonpositive_power_witness :
  -1 ≤ 0
  ∧ Exponentiate fixtureLeft (-1) = Panicked InvalidPowerError
  ∧ multiplyCalls fixtureLeft (-1) = [].
Proof.
  assert (H : -1 ≤ 0) by (by vm_compute).
  exact (conj H (exponentiate_rejects_nonpositive_power fixtureLeft (-1) H)).
Defined.

Lemma isGraphCyclic_tests_trace_witness :
  (0 < 2 ∧ square 2 fixtureLeft ∧ chansFit 2)
  ∧ Rows fixtureLeft = 2
  ∧ isGraphCyclic fixtureLeft
    = bind (Exponentiate fixtureLeft 2) (λ M, Returned (negb (Trace M =? 0)))
  ∧ ∃ M, Exponentiate fixtureLeft 2 = Returned M
         ∧ isGraphCyclic fixtureLeft = Returned (negb (Trace M =? 0)).
Proof.
  split.
  - exact (conj two_positive (conj fixtureLeft_square two_chansFit)).
  - destruct (isGraphCyclic_tests_trace 2 fixtureLeft
                two_positive fixtureLeft_square) as (Hrows & Hbind & Hret).
    exact (conj Hrows (conj Hbind (Hret two_chansFit))).
Defined.

Lemma multiply_dimension_check_witness :
  (Multiply fixtureLeft twoCycle = Panicked IncompatibleDimensionsError
   ↔ Rows fixtureLeft ≠ Columns twoCycle)
  ∧ ∀ M, Multiply fixtureLeft twoCycle = Returned M →
      Rows M = Rows fixtureLeft ∧ Columns M = Columns fixtureLeft
      ∧ len (Entries M) = Rows fixtureLeft
      ∧ Forall (λ row, len row = Columns fixtureLeft) (Entries M).
Proof. exact (multiply_dimension_check fixtureLeft twoCycle). Defined.

(** * Further properties of the code *)

(** ** Arithmetic modulo 2^64 *)

Lemma wrap_mod z : wrap z `mod` 2 ^ 64 = z `mod` 2 ^ 64.
Proof.
  unfold wrap. rewrite Zminus_mod_idemp_l. f_equal. lia.
Qed.

Lemma wrap_congr x y : x `mod` 2 ^ 64 = y `mod` 2 ^ 64 → wrap x = wrap y.
Proof.
  intros H. unfold wrap. f_equal.
  rewrite <- (Z.add_mod_idemp_l x), <- (Z.add_mod_idemp_l y) by done.
  by rewrite H.
Qed.

Lemma wrap_wrap z : wrap (wrap z) = wrap z.
Proof. apply wrap_congr, wrap_mod. Qed.

Lemma wrap_range z : min_int ≤ wrap z ≤ max_int.
Proof.
  unfold wrap, min_int, max_int.
  pose proof (Z.mod_pos_bound (z + 2 ^ 63) (2 ^ 64)).
  assert (2 ^ 64 = 2 * 2 ^ 63) by reflexivity. lia.
Qed.

Lemma add_wrap_l sum v : add (wrap sum) v = wrap (sum + v).
Proof.
  unfold add. apply wrap_congr.
  rewrite <- Z.add_mod_idemp_l, wrap_mod, Z.add_mod_idemp_l by done. done.
Qed.

(** ** [Trace] *)

Lemma traceRow_sum i : ∀ (row : list Z) j sum,
  traceRow i j row (wrap sum)
  = wrap (sum + if decide (j ≤ i)%nat then default 0 (row !! (i - j)%nat)
                else 0).
Proof.
  induction row as [|value row IH]; intros j sum; simpl.
  - case_decide; f_equal; lia.
  - destruct (i =? j)%nat eqn:Hij.
    + apply Nat.eqb_eq in Hij as ->.
      rewrite add_wrap_l, IH, decide_False, decide_True by lia.
      rewrite Nat.sub_diag. simpl. f_equal. lia.
    + apply Nat.eqb_neq in Hij. rewrite IH.
      destruct (decide (j ≤ i)%nat).
      * rewrite decide_True by lia.
        replace (i - j)%nat with (S (i - S j)) by lia. done.
      * rewrite decide_False by lia. done.
Qed.

Lemma traceRows_sum (m : list (list Z)) : ∀ (rows : list (list Z)) i sum,
  (∀ t, rows !! t = m !! (i + t)%nat) →
  traceRows i rows (wrap sum)
  = wrap (sum + foldr Z.add 0
                  ((λ d, entry m d d) <$> seq i (length rows))).
Proof.
  induction rows as [|row rows IH]; intros i sum Hm; simpl.
  - f_equal. lia.
  - rewrite traceRow_sum, decide_True, Nat.sub_0_r by lia.
    rewrite IH; last first.
    { intros t. specialize (Hm (S t)). simpl in Hm. rewrite Hm.
      f_equal. lia. }
    specialize (Hm 0%nat). rewrite Nat.add_0_r in Hm. simpl in Hm.
    unfold entry at 2. rewrite <- Hm. simpl. by rewrite Z.add_assoc.
Qed.

Lemma Trace_sum M : Trace M = wrap (diagonalSum (Entries M)).
Proof.
  unfold Trace, diagonalSum.
  apply (traceRows_sum (Entries M) (Entries M) 0%nat 0). done.
Qed.

(** X1.  The trace of any matrix, square or not, is the sum of the entries
    on its diagonal reduced to an [int]; a row too short to reach the
    diagonal adds nothing. *)
Theorem Trace_diagonal M :
  Trace M
  = wrap (foldr Z.add 0
            ((λ d, default 0 (row ← Entries M !! d; row !! d))
               <$> seq 0 (length (Entries M)))).
Proof. apply Trace_sum. Qed.

(** ** Early panics of [Multiply] and [Exponentiate] *)

Lemma Multiply_incompatible self other :
  Rows self ≠ Columns other →
  Multiply self other = Panicked IncompatibleDimensionsError.
Proof.
  intros Hne. unfold Multiply.
  by rewrite (proj2 (Z.eqb_neq _ _) Hne).
Qed.

(** X2.  [self.Multiply(other)] panics with the error of the constructor
    exactly when the dimension check passes and [self.Rows] or
    [self.Columns] is not positive. *)
Theorem multiply_dimension_error self other :
  Multiply self other = Panicked DimensionError
  ↔ Rows self = Columns other ∧ (Rows self ≤ 0 ∨ Columns self ≤ 0).
Proof.
  unfold Multiply. destruct (Rows self =? Columns other) eqn:Heq; simpl.
  - apply Z.eqb_eq in Heq. unfold NewMatrix.
    destruct (Rows self <=? 0) eqn:Hr; simpl.
    { apply Z.leb_le in Hr. split; [auto|done]. }
    destruct (Columns self <=? 0) eqn:Hc; simpl.
    { apply Z.leb_le in Hc. split; [auto|done]. }
    apply Z.leb_gt in Hr, Hc.
    split; [|lia].
    destruct (makeslice _ _ && makeslice _ _); [|done].
    cbn [Rows Columns Entries].
    destruct (negb (makechan _ _)); [done|].
    destruct (encode self other) as [pairs fails].
    by destruct (mainPc _).
  - apply Z.eqb_neq in Heq. split; [done|]. intros [? _]. done.
Qed.

(** X3.  On a matrix whose [Rows] and [Columns] differ, [Exponentiate]
    with a power of at least 2 panics with the incompatible-dimensions
    error in its first call of [Multiply]; only power 1 returns. *)
Theorem exponentiate_needs_square A power :
  Rows A ≠ Columns A → 2 ≤ power →
  Exponentiate A power = Panicked IncompatibleDimensionsError
  ∧ multiplyCalls A power = [(A, A)]
  ∧ Exponentiate A 1 = Returned A.
Proof.
  intros Hne Hp. unfold Exponentiate, multiplyCalls, exponentiateLogged.
  rewrite (proj2 (Z.leb_gt power 0)) by lia.
  replace (Z.to_nat (power - 1)) with (S (Z.to_nat (power - 2))) by lia.
  cbn [exponentiateLoop].
  rewrite (Multiply_incompatible A A Hne). done.
Qed.

(** ** [NewMatrix] *)

(** X4.  [NewMatrix] returns the dimension error exactly when [rows] or
    [columns] is not positive, whatever entries it is given, and every
    error comes with the zero [Matrix]. *)
Theorem NewMatrix_errors rows columns entries :
  ((∃ m, NewMatrix rows columns entries = Returned (m, Some DimensionError))
   ↔ rows ≤ 0 ∨ columns ≤ 0)
  ∧ ∀ m err, NewMatrix rows columns entries = Returned (m, Some err) →
      m = zeroMatrix.
Proof.
  unfold NewMatrix.
  destruct (rows <=? 0) eqn:Hr; cbn [orb].
  { apply Z.leb_le in Hr. split; [split; eauto|by intros m err [= <- _]]. }
  destruct (columns <=? 0) eqn:Hc; cbn [orb].
  { apply Z.leb_le in Hc. split; [split; eauto|by intros m err [= <- _]]. }
  apply Z.leb_gt in Hr, Hc.
  destruct entries as [|entries0 more].
  { destruct (makeslice _ _ && makeslice _ _);
      (split; [split; [by intros [m ?]|lia]|done]). }
  destruct (negb _ || negb _);
    (split; [split; [by intros [m ?]|lia]|]); [|done].
  by intros m err [= <- _].
Qed.

(** X5.  With positive dimensions and no entries, [NewMatrix] returns
    without error a matrix that satisfies the Matrix invariant and whose
    entries are all zero, provided the runtime makes the slices: the [rows]
    slice headers of 24 bytes and the [columns] integers of 8 bytes of a
    row are each at most 2^48 bytes.  Otherwise the call panics in [make]
    and returns nothing. *)
Theorem NewMatrix_zero_filled rows columns :
  0 < rows → 0 < columns →
  (sliceSize * rows ≤ maxAlloc ∧ intSize * columns ≤ maxAlloc →
   ∃ m, NewMatrix rows columns [] = Returned (m, None)
        ∧ shaped rows columns m
        ∧ Forall (Forall (λ v, v = 0)) (Entries m))
  ∧ (¬ (sliceSize * rows ≤ maxAlloc ∧ intSize * columns ≤ maxAlloc) →
     NewMatrix rows columns [] = Panicked SliceLenOutOfRange).
Proof.
  intros Hr Hc. split.
  - intros [Hrows Hcolumns]. eexists. split; [|split].
    + apply NewMatrix_zero; [done..| |]; unfold makeslice;
        apply andb_true_iff; split; apply Z.leb_le; (done || lia).
    + apply grid_shaped; [lia..|]. apply zeroEntries_grid.
    + simpl. unfold zeroEntries. apply Forall_replicate, Forall_replicate.
      done.
  - intros Hno. unfold NewMatrix.
    rewrite (proj2 (Z.leb_gt rows 0)), (proj2 (Z.leb_gt columns 0)) by done.
    cbn [orb]. unfold makeslice.
    destruct (sliceSize * rows <=? maxAlloc) eqn:H1;
      destruct (intSize * columns <=? maxAlloc) eqn:H2;
      rewrite ?andb_false_r, ?andb_false_l; try done.
    apply Z.leb_le in H1, H2. by destruct Hno.
Qed.

(** X6.  With positive dimensions and entries given, [NewMatrix] looks at
    the number of rows of the first [entries] argument and at the length of
    its first row only: it returns the matrix holding those entries when
    both agree with [rows] and [columns], and the shape error otherwise.
    Further variadic arguments are ignored. *)
Theorem NewMatrix_shape_check rows columns entries0 more :
  0 < rows → 0 < columns →
  (len entries0 = rows ∧ len <$> head entries0 = Some columns →
   NewMatrix rows columns (entries0 :: more)
   = Returned (mkMatrix rows columns entries0, None))
  ∧ (¬ (len entries0 = rows ∧ len <$> head entries0 = Some columns) →
     NewMatrix rows columns (entries0 :: more)
     = Returned (zeroMatrix, Some ShapeMismatchError)).
Proof.
  intros Hr Hc. rewrite NewMatrix_entries by done.
  split; intros H; [by rewrite decide_True|by rewrite decide_False].
Qed.

(** X7.  Entries that form a grid of [rows] rows of [columns] values are
    accepted, and the matrix returned satisfies the Matrix invariant. *)
Theorem NewMatrix_accepts_grid rows columns entries0 more :
  0 < rows → 0 < columns →
  grid (Z.to_nat rows) (Z.to_nat columns) entries0 →
  NewMatrix rows columns (entries0 :: more)
  = Returned (mkMatrix rows columns entries0, None)
  ∧ shaped rows columns (mkMatrix rows columns entries0).
Proof.
  intros Hr Hc Hgrid. split; [|apply grid_shaped; [lia..|done]].
  rewrite NewMatrix_entries by done. apply decide_True.
  destruct Hgrid as [Hlen Hrows]. unfold len. split; [lia|].
  destruct entries0 as [|row0 rest]; simpl in *; [lia|].
  apply Forall_cons in Hrows as [Hrow0 _]. f_equal. lia.
Qed.

(** ** The driver *)

(** X8.  For a parsed table of [n] records of [n] fields, [n > 0] and
    [n ≤ 22720] (the sides whose channels the runtime makes, [chansFit]),
    [main] prints the matrix
    holding the table and then the verdict, the trace test on the [n]-th
    power; it neither warns nor stops early. *)
Theorem main_on_square_table n table :
  (0 < n)%nat → chansFit (Z.of_nat n) → rectangular n n table →
  ∃ M,
    Exponentiate (mkMatrix (Z.of_nat n) (Z.of_nat n) table) (Z.of_nat n)
    = Returned M
    ∧ mainOnTable table
      = [PrintedMatrix (mkMatrix (Z.of_nat n) (Z.of_nat n) table);
         PrintedVerdict (negb (Trace M =? 0))].
Proof.
  intros Hn Hfit [Hlen Hrows].
  assert (Hgrid : grid (Z.to_nat (Z.of_nat n)) (Z.to_nat (Z.of_nat n)) table).
  { rewrite Nat2Z.id. done. }
  assert (Hsq : square (Z.of_nat n) (mkMatrix (Z.of_nat n) (Z.of_nat n) table)).
  { apply grid_shaped; [lia..|done]. }
  assert (Hpos : 0 < Z.of_nat n) by lia.
  assert (Hone : 1 ≤ Z.of_nat n) by lia.
  destruct (Exponentiate_square (Z.of_nat n) _ (Z.of_nat n)
              Hpos Hfit Hsq Hone) as (M & HM & _).
  exists M. split; [done|].
  unfold mainOnTable. rewrite Z.eqb_refl. simpl.
  unfold len. rewrite Hlen.
  rewrite NewMatrix_entries by lia.
  rewrite decide_True; last first.
  { unfold len. split; [lia|].
    destruct table as [|row0 rest]; simpl in *; [lia|].
    apply Forall_cons in Hrows as [Hrow0 _]. f_equal. lia. }
  unfold isGraphCyclic. cbn [Rows]. rewrite HM. done.
Qed.

(** X9.  For a parsed table of [r] records of [c] fields with [r ≠ c],
    [main] prints nothing, not even the warning, and stops at [log.Fatal]
    with the shape error of [NewMatrix]; on the empty table it stops with
    the dimension error. *)
Theorem main_on_other_tables r c table :
  rectangular r c table → r ≠ c →
  (Warned ∉ mainOnTable table)
  ∧ mainOnTable table
    = [Fatal (if decide (r = 0)%nat then DimensionError
              else ShapeMismatchError)].
Proof.
  intros Hrect Hne. split; [apply mainOnTable_never_warns|].
  case_decide as Hr.
  - destruct Hrect as [Hlen _]. rewrite Hr in Hlen.
    apply length_zero_iff_nil in Hlen as ->. done.
  - apply (mainOnTable_nonsquare r c); [done|lia|done].
Qed.

(** ** [convertContentsToInt] *)

Lemma convertLine_inl {E} (Atoi : string → Z + E) : ∀ line newLine,
  convertLine Atoi line = inl newLine
  ↔ Forall2 (λ entry v, Atoi entry = inl v) line newLine.
Proof.
  induction line as [|entry line IH]; intros newLine; simpl.
  - split.
    + intros [= <-]. constructor.
    + intros ->%Forall2_nil_inv_l. done.
  - split.
    + destruct (Atoi entry) as [v|err] eqn:Hv; [|done].
      destruct (convertLine Atoi line) as [rest|err] eqn:Hrest; [|done].
      intros [= <-]. constructor; [done|]. by apply IH.
    + intros (v & rest & Hv & Hrest & ->)%Forall2_cons_inv_l.
      apply IH in Hrest. by rewrite Hv, Hrest.
Qed.

(** X10.  [convertContentsToInt] returns a table exactly when every entry
    parses, and then the table has the shape of the contents and holds the
    parsed value of every entry at its place. *)
Theorem convertContentsToInt_returns {E} (Atoi : string → Z + E) :
  ∀ contents newContents,
    convertContentsToInt Atoi contents = inl newContents
    ↔ Forall2 (Forall2 (λ entry v, Atoi entry = inl v)) contents newContents.
Proof.
  induction contents as [|line contents IH]; intros newContents; simpl.
  - split.
    + intros [= <-]. constructor.
    + intros ->%Forall2_nil_inv_l. done.
  - split.
    + destruct (convertLine Atoi line) as [newLine|err] eqn:Hline; [|done].
      destruct (convertContentsToInt Atoi contents) as [rest|err] eqn:Hrest;
        [|done].
      intros [= <-]. constructor; [by apply convertLine_inl|]. by apply IH.
    + intros (newLine & rest & Hline & Hrest & ->)%Forall2_cons_inv_l.
      apply convertLine_inl in Hline. apply IH in Hrest.
      by rewrite Hline, Hrest.
Qed.

Lemma convertLine_inr {E} (Atoi : string → Z + E) : ∀ line err,
  convertLine Atoi line = inr err
  ↔ ∃ before entry after,
      line = before ++ entry :: after
      ∧ Forall (λ e, ∃ v, Atoi e = inl v) before
      ∧ Atoi entry = inr err.
Proof.
  induction line as [|entry line IH]; intros err; simpl.
  - split; [done|]. intros (before & e & after & Heq & _).
    by destruct before.
  - split.
    + destruct (Atoi entry) as [v|err'] eqn:Hv.
      * destruct (convertLine Atoi line) as [rest|err'] eqn:Hrest; [done|].
        intros [= <-].
        destruct (proj1 (IH err') eq_refl) as (before & e & after & -> & Hb & He).
        exists (entry :: before), e, after. split_and!; [done| |done].
        constructor; eauto.
      * intros [= <-]. exists [], entry, line. split_and!; [done| |done].
        constructor.
    + intros (before & e & after & Heq & Hb & He).
      destruct before as [|b before]; simpl in Heq; injection Heq as -> ->.
      * by rewrite He.
      * apply Forall_cons in Hb as [[v Hv] Hb]. rewrite Hv.
        assert (Hrest : convertLine Atoi (before ++ e :: after) = inr err).
        { apply IH. eauto 10. }
        by rewrite Hrest.
Qed.

(** X11.  [convertContentsToInt] stops the program with the error of
    [strconv.Atoi] on the first entry, in reading order, that does not
    parse: every line before its line and every entry before it on its
    line parse. *)
Theorem convertContentsToInt_fails {E} (Atoi : string → Z + E) :
  ∀ contents err,
    convertContentsToInt Atoi contents = inr err
    ↔ ∃ linesBefore before entry after linesAfter,
        contents = linesBefore ++ (before ++ entry :: after) :: linesAfter
        ∧ Forall (Forall (λ e, ∃ v, Atoi e = inl v)) linesBefore
        ∧ Forall (λ e, ∃ v, Atoi e = inl v) before
        ∧ Atoi entry = inr err.
Proof.
  induction contents as [|line contents IH]; intros err; simpl.
  - split; [done|]. intros (lb & ? & ? & ? & ? & Heq & _). by destruct lb.
  - split.
    + destruct (convertLine Atoi line) as [newLine|err'] eqn:Hline.
      * destruct (convertContentsToInt Atoi contents) as [rest|err'] eqn:Hrest;
          [done|].
        intros [= <-].
        destruct (proj1 (IH err') eq_refl)
          as (lb & before & e & after & la & -> & Hlb & Hb & He).
        exists (line :: lb), before, e, after, la.
        split_and!; [done| |done..]. constructor; [|done].
        apply convertLine_inl in Hline.
        clear -Hline. induction Hline; constructor; eauto.
      * intros [= <-].
        apply convertLine_inr in Hline as (before & e & after & -> & Hb & He).
        exists [], before, e, after, contents. split_and!; [done| |done..].
        constructor.
    + intros (lb & before & e & after & la & Heq & Hlb & Hb & He).
      destruct lb as [|l lb]; simpl in Heq; injection Heq as -> ->.
      * assert (Hline : convertLine Atoi (before ++ e :: after) = inr err).
        { apply convertLine_inr. eauto 10. }
        by rewrite Hline.
      * apply Forall_cons in Hlb as [Hl Hlb].
        assert (Hline : ∃ newLine, convertLine Atoi l = inl newLine).
        { clear -Hl. induction l as [|x l IHl]; simpl; [eauto|].
          apply Forall_cons in Hl as [[v Hv] Hl].
          destruct (IHl Hl) as [rest Hrest]. rewrite Hv, Hrest. eauto. }
        destruct Hline as [newLine Hline]. rewrite Hline.
        assert (Hrest : convertContentsToInt Atoi
                          (lb ++ (before ++ e :: after) :: la) = inr err).
        { apply IH. eauto 10. }
        by rewrite Hrest.
Qed.

(** ** Sums *)

Lemma dot_sumZ a b n i k :
  dot a b n i k = sumZ (λ j, entry a i j * entry b j k) 0 n.
Proof. done. Qed.

Lemma sumZ_S f start count :
  sumZ f start (S count) = f start + sumZ f (S start) count.
Proof. done. Qed.

Lemma sumZ_ext f g start count :
  (∀ j, (start ≤ j < start + count)%nat → f j = g j) →
  sumZ f start count = sumZ g start count.
Proof.
  revert start. induction count as [|count IH]; intros start Hfg; [done|].
  rewrite !sumZ_S, (Hfg start), (IH (S start)) by (intros; try apply Hfg; lia).
  done.
Qed.

Lemma sumZ_add f g start count :
  sumZ (λ j, f j + g j) start count = sumZ f start count + sumZ g start count.
Proof.
  revert start. induction count as [|count IH]; intros start; [done|].
  rewrite !sumZ_S, IH. lia.
Qed.

Lemma sumZ_mul_l x f start count :
  sumZ (λ j, x * f j) start count = x * sumZ f start count.
Proof.
  revert start. induction count as [|count IH]; intros start.
  - unfold sumZ. simpl. lia.
  - rewrite !sumZ_S, IH. lia.
Qed.

Lemma sumZ_mul_r x f start count :
  sumZ (λ j, f j * x) start count = sumZ f start count * x.
Proof.
  revert start. induction count as [|count IH]; intros start.
  - unfold sumZ. simpl. lia.
  - rewrite !sumZ_S, IH. lia.
Qed.

Lemma sumZ_zero start count : sumZ (λ _, 0) start count = 0.
Proof.
  revert start. induction count as [|count IH]; intros start; [done|].
  by rewrite sumZ_S, IH.
Qed.

Lemma sumZ_exchange (f : nat → nat → Z) s1 c1 s2 c2 :
  sumZ (λ j, sumZ (λ l, f j l) s2 c2) s1 c1
  = sumZ (λ l, sumZ (λ j, f j l) s1 c1) s2 c2.
Proof.
  revert s1. induction c1 as [|c1 IH]; intros s1.
  - transitivity (sumZ (λ _, 0) s2 c2); [by rewrite sumZ_zero|].
    by apply sumZ_ext.
  - rewrite sumZ_S, IH, <- sumZ_add. by apply sumZ_ext.
Qed.

Lemma sumZ_nonneg f start count :
  (∀ j, (start ≤ j < start + count)%nat → 0 ≤ f j) →
  0 ≤ sumZ f start count.
Proof.
  revert start. induction count as [|count IH]; intros start Hf; [done|].
  rewrite sumZ_S.
  pose proof (Hf start ltac:(lia)).
  pose proof (IH (S start) ltac:(intros; apply Hf; lia)). lia.
Qed.

Lemma sumZ_le f g start count :
  (∀ j, (start ≤ j < start + count)%nat → f j ≤ g j) →
  sumZ f start count ≤ sumZ g start count.
Proof.
  revert start. induction count as [|count IH]; intros start Hf; [done|].
  rewrite !sumZ_S.
  pose proof (Hf start ltac:(lia)).
  pose proof (IH (S start) ltac:(intros; apply Hf; lia)). lia.
Qed.

Lemma sumZ_const x start count :
  sumZ (λ _, x) start count = Z.of_nat count * x.
Proof.
  revert start. induction count as [|count IH]; intros start.
  - unfold sumZ. simpl. lia.
  - rewrite sumZ_S, IH. lia.
Qed.

Lemma sumZ_pos f start count j :
  (∀ j, (start ≤ j < start + count)%nat → 0 ≤ f j) →
  (start ≤ j < start + count)%nat → 0 < f j →
  0 < sumZ f start count.
Proof.
  revert start. induction count as [|count IH]; intros start Hf Hj Hpos; [lia|].
  rewrite sumZ_S.
  pose proof (Hf start ltac:(lia)).
  pose proof (sumZ_nonneg f (S start) count ltac:(intros; apply Hf; lia)).
  destruct (decide (j = start)) as [->|Hne]; [lia|].
  pose proof (IH (S start) ltac:(intros; apply Hf; lia) ltac:(lia) Hpos). lia.
Qed.

Lemma sumZ_nonzero f start count :
  sumZ f start count ≠ 0 →
  ∃ j, (start ≤ j < start + count)%nat ∧ f j ≠ 0.
Proof.
  revert start. induction count as [|count IH]; intros start Hne; [done|].
  rewrite sumZ_S in Hne.
  destruct (decide (f start = 0)) as [Hz|Hnz].
  - destruct (IH (S start)) as (j & Hj & Hfj); [lia|]. exists j. split; [lia|done].
  - exists start. split; [lia|done].
Qed.

Lemma sumZ_delta f k start count :
  sumZ (λ j, f j * if decide (j = k) then 1 else 0) start count
  = if decide (start ≤ k < start + count)%nat then f k else 0.
Proof.
  revert start. induction count as [|count IH]; intros start.
  - unfold sumZ. simpl. rewrite decide_False by lia. done.
  - rewrite sumZ_S, IH. repeat case_decide; subst; lia.
Qed.

Lemma sumZ_mod f g start count :
  (∀ j, (start ≤ j < start + count)%nat →
     f j `mod` 2 ^ 64 = g j `mod` 2 ^ 64) →
  sumZ f start count `mod` 2 ^ 64 = sumZ g start count `mod` 2 ^ 64.
Proof.
  revert start. induction count as [|count IH]; intros start Hfg; [done|].
  rewrite !sumZ_S.
  rewrite (Z.add_mod (f start)), (Z.add_mod (g start)) by done.
  rewrite (Hfg start), (IH (S start)) by (intros; try apply Hfg; lia).
  done.
Qed.

(** ** Products and powers in the integers *)

Lemma productZ_grid a b n : grid n n (productZ a b n).
Proof.
  unfold productZ. split.
  - by rewrite length_fmap, length_seq.
  - apply Forall_fmap, Forall_forall. intros i _. simpl.
    by rewrite length_fmap, length_seq.
Qed.

Lemma productZ_entry a b n i k :
  (i < n)%nat → (k < n)%nat →
  entry (productZ a b n) i k = dot a b n i k.
Proof.
  intros Hi Hk. unfold entry, productZ.
  rewrite list_lookup_fmap, lookup_seq_lt by done. simpl.
  rewrite list_lookup_fmap, lookup_seq_lt by done. done.
Qed.

Lemma powerZ_grid a n p : grid n n a → grid n n (powerZ a n p).
Proof. destruct p; [done|]. intros _. apply productZ_grid. Qed.

Lemma productZ_ext a a' b b' n :
  (∀ i j, (i < n)%nat → (j < n)%nat → entry a i j = entry a' i j) →
  (∀ j k, (j < n)%nat → (k < n)%nat → entry b j k = entry b' j k) →
  productZ a b n = productZ a' b' n.
Proof.
  intros Ha Hb. apply (grid_ext n n); [apply productZ_grid..|].
  intros i k Hi Hk. rewrite !productZ_entry, !dot_sumZ by done.
  apply sumZ_ext. intros j Hj. rewrite Ha, Hb by lia. done.
Qed.

Lemma productZ_assoc a b c n :
  productZ a (productZ b c n) n = productZ (productZ a b n) c n.
Proof.
  apply (grid_ext n n); [apply productZ_grid..|].
  intros i k Hi Hk. rewrite !productZ_entry, !dot_sumZ by done.
  transitivity (sumZ (λ j, sumZ (λ l, entry a i j * entry b j l * entry c l k)
                             0 n) 0 n).
  - apply sumZ_ext. intros j Hj.
    rewrite productZ_entry, dot_sumZ, <- sumZ_mul_l by lia.
    apply sumZ_ext. intros l _. lia.
  - rewrite sumZ_exchange. apply sumZ_ext. intros l Hl.
    rewrite productZ_entry, dot_sumZ, <- sumZ_mul_r by lia. done.
Qed.

Lemma powerZ_add a n p q :
  powerZ a n (S (p + q)) = productZ (powerZ a n p) (powerZ a n q) n.
Proof.
  induction p as [|p IH]; [done|].
  change (powerZ a n (S (S p + q)))
    with (productZ a (powerZ a n (S (p + q))) n).
  rewrite IH, productZ_assoc. done.
Qed.

(** ** What [Multiply] computes, modulo 2^64 *)

Lemma wrap_eq_mod x y : wrap x = wrap y → x `mod` 2 ^ 64 = y `mod` 2 ^ 64.
Proof. intros H. by rewrite <- (wrap_mod x), H, wrap_mod. Qed.

Lemma entry_fmap_wrap (m : list (list Z)) i k :
  entry (wrapEntries m) i k = wrap (entry m i k).
Proof.
  unfold entry, wrapEntries. rewrite list_lookup_fmap.
  destruct (m !! i) as [row|]; simpl; [|done].
  rewrite list_lookup_fmap. by destruct (row !! k).
Qed.

Lemma ints_entry m i k : ints m → min_int ≤ entry m i k ≤ max_int.
Proof.
  intros Hm. unfold entry.
  destruct (m !! i) as [row|] eqn:Hrow; simpl; [|done].
  destruct (row !! k) as [v|] eqn:Hv; simpl; [|done].
  pose proof (Forall_lookup_1 _ _ _ _ Hm Hrow) as Hr.
  apply (Forall_lookup_1 _ _ _ _ Hr Hv).
Qed.

Lemma ints_fmap_wrap m : ints m → wrapEntries m = m.
Proof.
  intros Hm. unfold wrapEntries. rewrite <- (list_fmap_id m) at 2.
  apply Forall_fmap_ext_1. eapply Forall_impl; [exact Hm|].
  intros row Hrow. simpl. rewrite <- (list_fmap_id row) at 2.
  apply Forall_fmap_ext_1. eapply Forall_impl; [exact Hrow|].
  intros v Hv. by apply wrap_small.
Qed.

Lemma fmap_wrap_grid r c m : grid r c m → grid r c (wrapEntries m).
Proof.
  intros [Hlen Hrows]. unfold wrapEntries. split; [by rewrite length_fmap|].
  apply Forall_fmap. eapply Forall_impl; [exact Hrows|].
  intros row Hrow. simpl. by rewrite length_fmap.
Qed.

(** The pipeline's product depends on its operands modulo 2^64 only. *)
Lemma serialProduct_congr a a' b b' n :
  (∀ i j, wrap (entry a i j) = wrap (entry a' i j)) →
  (∀ j k, wrap (entry b j k) = wrap (entry b' j k)) →
  serialProduct a b n = wrapEntries (productZ a' b' n).
Proof.
  intros Ha Hb.
  apply (grid_ext n n);
    [apply serialProduct_grid|apply fmap_wrap_grid, productZ_grid|].
  intros i k Hi Hk.
  rewrite serialProduct_entry, serialEntry_dot, entry_fmap_wrap,
    productZ_entry by done.
  apply wrap_congr. rewrite !dot_sumZ. apply sumZ_mod. intros j _.
  rewrite (Z.mul_mod (entry a i j)), (Z.mul_mod (entry a' i j)) by done.
  by rewrite (wrap_eq_mod _ _ (Ha i j)), (wrap_eq_mod _ _ (Hb j k)).
Qed.

Lemma square_eta n M : square n M → M = mkMatrix n n (Entries M).
Proof. intros (Hr & Hc & _). destruct M. simpl in *. by subst. Qed.

(** The loop of [Exponentiate] holds the integer power reduced to
    [int]. *)
Lemma exponentiateLoop_power n A :
  0 < n → chansFit n → square n A →
  ∀ iterations currentMatrix calls q,
    square n currentMatrix →
    Entries currentMatrix
    = wrapEntries (powerZ (Entries A) (Z.to_nat n) q) →
    (exponentiateLoop iterations A currentMatrix calls).1
    = Returned (mkMatrix n n
                  (wrapEntries
                     (powerZ (Entries A) (Z.to_nat n) (q + iterations)))).
Proof.
  intros Hn Hfit HA.
  induction iterations as [|iterations IH];
    intros currentMatrix calls q Hcur Hent.
  - simpl. rewrite Nat.add_0_r, <- Hent. f_equal. by apply square_eta.
  - cbn [exponentiateLoop].
    rewrite (Multiply_square n A currentMatrix) by done.
    replace (q + S iterations)%nat with (S q + iterations)%nat by lia.
    apply IH.
    + apply grid_shaped; [lia..|]. apply serialProduct_grid.
    + simpl. apply serialProduct_congr; [done|].
      intros j k. by rewrite Hent, entry_fmap_wrap, wrap_wrap.
Qed.

Lemma Exponentiate_power n A power :
  0 < n → chansFit n → square n A → ints (Entries A) → 1 ≤ power →
  Exponentiate A power
  = Returned (mkMatrix n n
                (wrapEntries
                   (powerZ (Entries A) (Z.to_nat n) (Z.to_nat (power - 1))))).
Proof.
  intros Hn Hfit HA Hints Hp. unfold Exponentiate, exponentiateLogged.
  rewrite (proj2 (Z.leb_gt power 0)) by lia.
  rewrite (exponentiateLoop_power n A Hn Hfit HA _ A [] 0%nat); [done..|].
  by rewrite ints_fmap_wrap.
Qed.

(** X12.  For a square matrix of [int]s of side [n > 0] with
    [n ≤ 22720] (the sides whose channels the runtime makes, [chansFit]),
    [Exponentiate(power)] returns the [power]-th power of the matrix computed in the integers with every
    entry reduced to an [int]: overflow in the intermediate products loses
    nothing but multiples of 2^64. *)
Theorem exponentiate_is_power_mod_2_64 n A power :
  0 < n → chansFit n → square n A → ints (Entries A) → 1 ≤ power →
  ∃ M, Exponentiate A power = Returned M
       ∧ Rows M = n ∧ Columns M = n
       ∧ ∀ i k, entry (Entries M) i k
                = wrap (entry (powerZ (Entries A) (Z.to_nat n)
                                 (Z.to_nat (power - 1))) i k).
Proof.
  intros Hn Hfit HA Hints Hp. eexists.
  split; [by apply Exponentiate_power|]. simpl. split_and!; [done..|].
  intros i k. apply entry_fmap_wrap.
Qed.

(** X13.  Powers compose: for a square matrix of [int]s of side
    [n > 0] with [n ≤ 22720] (the sides whose channels the runtime makes,
    [chansFit]) and powers [p, q ≥ 1], [A.Exponentiate(p).Multiply(A.Exponentiate(q))] returns
    the same matrix as [A.Exponentiate(p + q)], overflow included. *)
Theorem exponentiate_add n A p q :
  0 < n → chansFit n → square n A → ints (Entries A) → 1 ≤ p → 1 ≤ q →
  ∃ P Q M,
    Exponentiate A p = Returned P
    ∧ Exponentiate A q = Returned Q
    ∧ Multiply P Q = Returned M
    ∧ Exponentiate A (p + q) = Returned M.
Proof.
  intros Hn Hfit HA Hints Hp Hq.
  do 3 eexists. split; [by apply Exponentiate_power|].
  split; [by apply Exponentiate_power|].
  pose proof (shaped_grid _ _ _ HA) as HAgrid.
  rewrite (Multiply_square n), (Exponentiate_power n) by
    (done || lia || (apply grid_shaped; [lia..|];
                     by apply fmap_wrap_grid, powerZ_grid)).
  split; [done|]. simpl. do 2 f_equal.
  replace (Z.to_nat (p + q - 1))
    with (S (Z.to_nat (p - 1) + Z.to_nat (q - 1))) by lia.
  rewrite powerZ_add. symmetry.
  apply serialProduct_congr; intros; by rewrite entry_fmap_wrap, wrap_wrap.
Qed.

(** ** The identity matrix *)

Lemma identityEntries_grid n : grid n n (identityEntries n).
Proof.
  unfold identityEntries. split.
  - by rewrite length_fmap, length_seq.
  - apply Forall_fmap, Forall_forall. intros i _. simpl.
    by rewrite length_fmap, length_seq.
Qed.

Lemma identityEntries_entry n i k :
  (i < n)%nat → (k < n)%nat →
  entry (identityEntries n) i k = if decide (i = k) then 1 else 0.
Proof.
  intros Hi Hk. unfold entry, identityEntries.
  rewrite list_lookup_fmap, lookup_seq_lt by done. simpl.
  rewrite list_lookup_fmap, lookup_seq_lt by done. done.
Qed.

Lemma identity_square n : 0 < n → square n (identity n).
Proof.
  intros Hn. apply grid_shaped; [lia..|]. apply identityEntries_grid.
Qed.

(** X14.  Multiplying a square matrix of [int]s of side [n > 0] with
    [n ≤ 22720] (the sides whose channels the runtime makes, [chansFit])
    by the identity matrix of its side, on either side, returns the matrix
    itself. *)
Theorem multiply_identity n A :
  0 < n → chansFit n → square n A → ints (Entries A) →
  Multiply A (identity n) = Returned A
  ∧ Multiply (identity n) A = Returned A.
Proof.
  intros Hn Hfit HA Hints.
  pose proof (identity_square n Hn) as HI.
  pose proof (shaped_grid _ _ _ HA) as HAgrid.
  rewrite !(Multiply_square n) by done.
  split;
    (transitivity (Returned (mkMatrix n n (Entries A)));
     [|by rewrite <- square_eta]); do 2 f_equal.
  - apply (grid_ext (Z.to_nat n) (Z.to_nat n));
      [apply serialProduct_grid|done|].
    intros i k Hi Hk.
    rewrite serialProduct_entry, serialEntry_dot, dot_sumZ by done.
    rewrite (sumZ_ext _ (λ j, entry (Entries A) i j
                              * if decide (j = k) then 1 else 0)).
    + rewrite sumZ_delta, decide_True by lia.
      apply wrap_small. by apply ints_entry.
    + intros j Hj. simpl. by rewrite identityEntries_entry by lia.
  - apply (grid_ext (Z.to_nat n) (Z.to_nat n));
      [apply serialProduct_grid|done|].
    intros i k Hi Hk.
    rewrite serialProduct_entry, serialEntry_dot, dot_sumZ by done.
    rewrite (sumZ_ext _ (λ j, entry (Entries A) j k
                              * if decide (j = i) then 1 else 0)).
    + rewrite sumZ_delta, decide_True by lia.
      apply wrap_small. by apply ints_entry.
    + intros j Hj. simpl. rewrite identityEntries_entry by lia.
      repeat case_decide; subst; lia.
Qed.

(** ** Adjacency matrices: powers count walks *)

Lemma entry_outside r c m i k :
  grid r c m → ¬ ((i < r)%nat ∧ (k < c)%nat) → entry m i k = 0.
Proof.
  intros Hgrid Hout. destruct (decide (entry m i k = 0)) as [|Hne]; [done|].
  by apply (entry_nonzero r c) in Hne.
Qed.

Lemma binary_entry A i k :
  binary A → entry (Entries A) i k = 0 ∨ entry (Entries A) i k = 1.
Proof.
  intros Hbin. unfold entry.
  destruct (Entries A !! i) as [row|] eqn:Hrow; simpl; [|auto].
  destruct (row !! k) as [v|] eqn:Hv; simpl; [|auto].
  pose proof (Forall_lookup_1 _ _ _ _ Hbin Hrow) as Hr.
  apply (Forall_lookup_1 _ _ _ _ Hr Hv).
Qed.

Lemma ints_intro m :
  (∀ i k, min_int ≤ entry m i k ≤ max_int) → ints m.
Proof.
  intros Hent. apply Forall_lookup_2. intros i row Hrow.
  apply Forall_lookup_2. intros k v Hv.
  specialize (Hent i k). unfold entry in Hent.
  by rewrite Hrow in Hent; simpl in Hent; rewrite Hv in Hent.
Qed.

Section Walks.

Variables (A : Matrix) (n : nat).
Hypothesis A_grid : grid n n (Entries A).
Hypothesis A_binary : binary A.

(** The entries of the powers of a 0/1 matrix are not negative, and the
    entries of the [p + 1]-st power are at most [n ^ p]. *)
Lemma powerZ_bounds p : ∀ i k,
  0 ≤ entry (powerZ (Entries A) n p) i k ≤ Z.of_nat n ^ Z.of_nat p.
Proof.
  induction p as [|p IH]; intros i k.
  - simpl. destruct (binary_entry A i k A_binary) as [-> | ->]; lia.
  - destruct (decide ((i < n)%nat ∧ (k < n)%nat)) as [[Hi Hk]|Hout].
    + cbn [powerZ]. rewrite productZ_entry, dot_sumZ by done.
      replace (Z.of_nat n ^ Z.of_nat (S p))
        with (Z.of_nat n * Z.of_nat n ^ Z.of_nat p)
        by (rewrite Nat2Z.inj_succ, Z.pow_succ_r by lia; done).
      rewrite <- (sumZ_const (Z.of_nat n ^ Z.of_nat p) 0 n).
      split.
      * apply sumZ_nonneg. intros j _.
        pose proof (IH j k).
        destruct (binary_entry A i j A_binary) as [-> | ->]; lia.
      * apply sumZ_le. intros j _.
        pose proof (IH j k).
        destruct (binary_entry A i j A_binary) as [-> | ->]; lia.
    + rewrite (entry_outside n n); [|by apply powerZ_grid|done].
      split; [done|]. apply Z.pow_nonneg. lia.
Qed.

(** Entry [(i, k)] of the [p + 1]-st power is positive exactly when a walk
    of [p + 1] edges leads from [i] to [k]. *)
Lemma powerZ_walk p : ∀ i k,
  0 < entry (powerZ (Entries A) n p) i k
  ↔ ∃ nodes, length nodes = S p ∧ walk A i nodes = true
             ∧ last nodes = Some k.
Proof.
  induction p as [|p IH]; intros i k.
  - simpl. split.
    + intros Hpos. exists [k]. split_and!; [done| |done].
      simpl. rewrite andb_true_r. unfold edge.
      apply negb_true_iff, Z.eqb_neq. lia.
    + intros (nodes & Hlen & Hwalk & Hlast).
      destruct nodes as [|j [|? ?]]; simplify_eq; simpl in *; simplify_eq.
      rewrite andb_true_r in Hwalk. unfold edge in Hwalk.
      apply negb_true_iff, Z.eqb_neq in Hwalk.
      destruct (binary_entry A i k A_binary); lia.
  - split.
    + intros Hpos.
      destruct (entry_nonzero n n _ i k (powerZ_grid _ _ (S p) A_grid))
        as [Hi Hk]; [lia|].
      cbn [powerZ] in Hpos. rewrite productZ_entry, dot_sumZ in Hpos by done.
      match type of Hpos with
      | 0 < ?s => assert (Hne : s ≠ 0) by lia
      end.
      destruct (sumZ_nonzero _ _ _ Hne) as (j & Hj & Hterm).
      simpl in Hterm.
      assert (Hij : entry (Entries A) i j ≠ 0).
      { intros Hz. apply Hterm. by rewrite Hz. }
      assert (Hjk : 0 < entry (powerZ (Entries A) n p) j k).
      { pose proof (powerZ_bounds p j k).
        destruct (decide (entry (powerZ (Entries A) n p) j k = 0)) as [Hz|];
          [|lia].
        exfalso. apply Hterm. rewrite Hz. lia. }
      apply IH in Hjk as (nodes & Hlen & Hwalk & Hlast).
      exists (j :: nodes). split_and!.
      * simpl. by rewrite Hlen.
      * simpl. rewrite Hwalk, andb_true_r. unfold edge.
        by apply negb_true_iff, Z.eqb_neq.
      * by rewrite last_cons, Hlast.
    + intros (nodes & Hlen & Hwalk & Hlast).
      destruct nodes as [|j nodes]; [done|].
      simpl in Hlen, Hwalk. apply andb_true_iff in Hwalk as [Hedge Hwalk].
      unfold edge in Hedge. apply negb_true_iff, Z.eqb_neq in Hedge.
      assert (Hlast' : last nodes = Some k).
      { rewrite last_cons in Hlast. destruct (last nodes) eqn:Hl; [done|].
        apply last_None in Hl. subst. simpl in Hlen. lia. }
      assert (Hjk : 0 < entry (powerZ (Entries A) n p) j k).
      { apply IH. exists nodes. split_and!; [lia|done..]. }
      destruct (entry_nonzero n n _ i j A_grid Hedge) as [Hi Hj].
      destruct (entry_nonzero n n _ j k (powerZ_grid _ _ p A_grid))
        as [_ Hk]; [lia|].
      cbn [powerZ]. rewrite productZ_entry, dot_sumZ by done.
      apply (sumZ_pos _ 0 n j); [|lia|].
      * intros j' _. pose proof (powerZ_bounds p j' k).
        destruct (binary_entry A i j' A_binary) as [-> | ->]; lia.
      * destruct (binary_entry A i j A_binary) as [Hz | ->]; [done|lia].
Qed.

End Walks.

Lemma binary_ints A : binary A → ints (Entries A).
Proof.
  intros Hbin. apply ints_intro. intros i k.
  unfold min_int, max_int.
  destruct (binary_entry A i k Hbin) as [-> | ->]; lia.
Qed.

(** [n ^ n] is an [int] for [n ≤ 15] only, and the channels of such a side
    can be made. *)
Lemma power_chansFit n : 0 < n → n ^ n ≤ max_int → chansFit n.
Proof.
  intros Hn Hpow.
  assert (Hle : n ≤ 15).
  { destruct (decide (n ≤ 15)) as [|Hgt]; [done|]. exfalso.
    assert (H16 : 16 ^ 16 ≤ n ^ n).
    { etrans; [apply (Z.pow_le_mono_l 16 n 16); lia|].
      apply Z.pow_le_mono_r; lia. }
    assert (Hval : 16 ^ 16 = 18446744073709551616) by reflexivity.
    assert (Hmax : max_int = 9223372036854775807) by reflexivity.
    lia. }
  unfold chansFit.
  assert (H48 : maxAlloc - hchanSize = 281474976710560) by reflexivity.
  assert (H24 : elementSize = 24) by reflexivity.
  assert (n * n ≤ 15 * 15) by nia.
  assert (n * n * n ≤ 15 * 15 * 15) by nia.
  lia.
Qed.

(** X15.  For a square 0/1 adjacency matrix of side [n] with [n^n] an
    [int] (so that nothing overflows), [isGraphCyclic] returns true exactly
    when the graph has a closed walk of exactly [n] edges. *)
Theorem isGraphCyclic_iff_closed_walk n A :
  0 < n → n ^ n ≤ max_int → square n A → binary A →
  ∃ verdict,
    isGraphCyclic A = Returned verdict
    ∧ (verdict = true ↔ closedWalk A (Z.to_nat n)).
Proof.
  intros Hn Hpow HA Hbin.
  pose proof (power_chansFit n Hn Hpow) as Hfit.
  pose proof (shaped_grid _ _ _ HA) as Hgrid.
  assert (Hr : Rows A = n) by (by destruct HA).
  set (N := Z.to_nat n) in *.
  set (P := powerZ (Entries A) N (Z.to_nat (n - 1))).
  assert (HP : grid N N P) by (by apply powerZ_grid).
  assert (Hbound : ∀ i k, 0 ≤ entry P i k ≤ n ^ (n - 1)).
  { intros i k. pose proof (powerZ_bounds A N Hgrid Hbin (Z.to_nat (n - 1)) i k).
    unfold N in *. rewrite !Z2Nat.id in * by lia. done. }
  assert (Hnn : n * n ^ (n - 1) = n ^ n).
  { rewrite <- Z.pow_succ_r by lia. f_equal. lia. }
  assert (Hle : n ^ (n - 1) ≤ n ^ n).
  { apply Z.pow_le_mono_r; lia. }
  assert (Hwrap : wrapEntries P = P).
  { apply ints_fmap_wrap, ints_intro. intros i k.
    specialize (Hbound i k). unfold min_int. lia. }
  exists (negb (Trace (mkMatrix n n P) =? 0)). split.
  { unfold isGraphCyclic.
    rewrite Hr, (Exponentiate_power n A n)
      by (done || lia || by apply binary_ints).
    fold N. fold P. rewrite Hwrap. done. }
  rewrite Trace_sum. cbn [Entries]. unfold diagonalSum.
  fold (sumZ (λ d, entry P d d) 0 (length P)).
  destruct HP as [HPlen HProws]. rewrite HPlen.
  assert (Hsum : 0 ≤ sumZ (λ d, entry P d d) 0 N ≤ n ^ n).
  { split; [apply sumZ_nonneg; intros; apply Hbound|].
    rewrite <- Hnn.
    replace n with (Z.of_nat N) at 1 by (unfold N; lia).
    rewrite <- (sumZ_const (n ^ (n - 1)) 0 N).
    apply sumZ_le. intros. apply Hbound. }
  rewrite wrap_small by (unfold min_int; lia).
  rewrite negb_true_iff, Z.eqb_neq. split.
  - intros Hne. apply sumZ_nonzero in Hne as (d & Hd & Hdd).
    assert (Hpos : 0 < entry P d d) by (specialize (Hbound d d); lia).
    apply (powerZ_walk A N Hgrid Hbin) in Hpos
      as (nodes & Hlen & Hwalk & Hlast).
    exists d, nodes. split_and!; [|done..]. unfold N in *. lia.
  - intros (d & nodes & Hlen & Hwalk & Hlast).
    assert (Hpos : 0 < entry P d d).
    { apply (powerZ_walk A N Hgrid Hbin). exists nodes.
      split_and!; [|done..]. unfold N in *. lia. }
    destruct (entry_nonzero N N P d d) as [Hd _]; [done|lia|].
    pose proof (sumZ_pos (λ d, entry P d d) 0 N d
                  ltac:(intros; apply Hbound) ltac:(lia) Hpos). lia.
Qed.

(** X16.  For a square matrix of any [int]s, overflow or not, a true
    verdict of [isGraphCyclic] is never wrong: the graph then has a closed
    walk of exactly [n] edges. *)
Theorem positive_verdict_has_closed_walk n A :
  0 < n → cubeFits n → square n A →
  isGraphCyclic A = Returned true →
  closedWalk A (Z.to_nat n).
Proof.
  intros Hn Hcube HA Hcyc.
  destruct (decide (chansFit n)) as [Hfit|Hno].
  { by apply (isGraphCyclic_true_closed_walk n A). }
  exfalso. assert (Hr : Rows A = n) by (by destruct HA).
  destruct (Multiply_beyond n A A Hn Hr Hcube Hno) as [e He].
  assert (Hne : n ≠ 1).
  { intros ->. apply Hno. unfold chansFit. by vm_compute. }
  unfold isGraphCyclic, Exponentiate, exponentiateLogged in Hcyc.
  rewrite Hr, (proj2 (Z.leb_gt n 0)) in Hcyc by done.
  replace (Z.to_nat (n - 1)) with (S (Z.to_nat (n - 2))) in Hcyc by lia.
  cbn [exponentiateLoop] in Hcyc. rewrite He in Hcyc. done.
Qed.

(** ** Runs of the pipeline on arbitrary operands *)

(** X17.  Whatever the operands, the capacity of the channels and the
    schedule, a run of the pipeline takes at most [7 * pairs + 6] steps,
    [pairs] being the number of pairs the encoder has to send. *)
Theorem pipeline_runs_are_bounded size fails pairs entries k st :
  nsteps (step size fails) k (initial pairs entries) st →
  (k ≤ 7 * length pairs + 6)%nat.
Proof.
  intros Hsteps. apply nsteps_potential in Hsteps.
  unfold potential in Hsteps at 2. simpl in Hsteps. lia.
Qed.

Lemma encoding_step total size fails st st' :
  0 ≤ size → (2 * size + 1 < Z.of_nat total) →
  encoding total size st → step size fails st st' →
  encoding total size st'.
Proof.
  intros Hsize Htotal Henc [g Hg]. crush_state st.
  unfold encoding in *. simpl in *.
  destruct Henc as (Hm & -> & -> & -> & Hw & Hcount & Hb1 & Hb3).
  destruct mp as [[|[x y] p]|y p| | | |]; try done;
    destruct wp as [|x' [|]|e| |]; try done; simpl in *.
  all: try (exfalso; lengths; fail).
  all: destruct g; simpl in Hg;
    unfold mainStep, workerStep, assemble, decide_product in Hg; simpl in Hg.
  all: repeat (case_match; simplify_eq; simpl in * ).
  all: repeat match goal with
         | H : (_ <? _) = true |- _ => apply Z.ltb_lt in H
         end.
  all: split_and!; try done; lengths.
Qed.

Lemma encoding_initial size pairs entries :
  0 ≤ size → encoding (length pairs) size (initial pairs entries).
Proof.
  intros Hsize. unfold encoding. simpl.
  split_and!; try done. rewrite length_fmap. lia.
Qed.

Lemma encoding_rtc total size fails st st' :
  0 ≤ size → (2 * size + 1 < Z.of_nat total) →
  encoding total size st → rtc (step size fails) st st' →
  encoding total size st'.
Proof.
  intros Hsize Htotal Henc Hrtc.
  induction Hrtc; eauto using encoding_step.
Qed.

Lemma encoding_unfinished total size st :
  encoding total size st → finished st = false.
Proof.
  intros (Hm & _). unfold finished. by destruct (mainPc st).
Qed.

(** With channels too small for the pairs, the caller never leaves the
    encoder's loops. *)
Lemma Multiply_deadlocked self other :
  Rows self = Columns other → 0 < Rows self → 0 < Columns self →
  makeslice sliceSize (Rows self) = true →
  makeslice intSize (Columns self) = true →
  let size := mul (mul (Rows self) (Rows self)) (Rows self) in
  makechan elementSize size = true →
  2 * size + 1 < len (encode self other).1 →
  Multiply self other = Deadlocked
  ∧ ∀ st, multiplyRuns self other st → finished st = false.
Proof.
  intros Heq Hr Hc Hsr Hsc size Hch Hpairs.
  assert (Hsize : 0 ≤ size).
  { unfold makechan in Hch. apply andb_true_iff in Hch as [Hch _].
    by apply Z.leb_le. }
  assert (Hall : ∀ st,
             rtc (step size (encode self other).2)
                 (initial (encode self other).1
                    (zeroEntries (Rows self) (Columns self))) st →
             encoding (length (encode self other).1) size st).
  { intros st Hrun. eapply encoding_rtc; [done|exact Hpairs| |exact Hrun].
    by apply encoding_initial. }
  split.
  - rewrite (Multiply_pipeline (Rows self) (Columns self)) by done.
    cbn zeta. fold size.
    set (st0 := initial _ _).
    pose proof (Hall _ (run_rtc size _ (potential st0) st0)) as (Hm & _).
    by destruct (mainPc _).
  - intros st Hrun. eapply encoding_unfinished. by apply Hall.
Qed.

(** X18.  When the runtime makes the result and the channels, and the
    encoder has more than [2 * size + 1] pairs to send, [size] being the
    capacity [Rows * Rows * Rows] of the channels, no schedule lets
    [Multiply] return or panic: the caller never leaves the encoder's
    loops, and since every run is finite every run ends with all
    goroutines blocked. *)
Theorem multiply_deadlocks self other :
  Rows self = Columns other → 0 < Rows self → 0 < Columns self →
  makeslice sliceSize (Rows self) = true →
  makeslice intSize (Columns self) = true →
  let size := mul (mul (Rows self) (Rows self)) (Rows self) in
  makechan elementSize size = true →
  2 * size + 1 < len (encode self other).1 →
  Multiply self other = Deadlocked
  ∧ ∀ st, multiplyRuns self other st → finished st = false.
Proof. apply Multiply_deadlocked. Qed.

(** ** Sides beyond what the runtime allocates *)

Lemma zeroSquare_refused n :
  0 < n → makeslice sliceSize n = true → makeslice intSize n = true →
  makechan elementSize (mul (mul n n) n) = false →
  Multiply (zeroSquare n) (zeroSquare n) = Panicked ChanSizeOutOfRange.
Proof. intros. by apply (Multiply_makechan_refused n n). Qed.

Lemma zeroSquare_deadlocks n :
  0 < n → makeslice sliceSize n = true → makeslice intSize n = true →
  makechan elementSize (mul (mul n n) n) = true →
  2 * mul (mul n n) n + 1 < n * n * n →
  Multiply (zeroSquare n) (zeroSquare n) = Deadlocked
  ∧ ∀ st, multiplyRuns (zeroSquare n) (zeroSquare n) st → finished st = false.
Proof.
  intros Hn Hsr Hsc Hch Hpairs.
  pose proof (zeroSquare_square n Hn) as Hsq.
  destruct (encode_square n _ _ Hn Hsq Hsq) as (_ & Hlen & _).
  apply Multiply_deadlocked; cbn [Rows Columns zeroSquare]; try done.
  by rewrite Hlen.
Qed.

(** When the first call of [Multiply] panics, so do [Exponentiate] with a
    power of at least 2, after that one call, and [isGraphCyclic]. *)
Lemma Exponentiate_first_panics A power e :
  2 ≤ power → Multiply A A = Panicked e →
  Exponentiate A power = Panicked e ∧ multiplyCalls A power = [(A, A)].
Proof.
  intros Hp He. unfold Exponentiate, multiplyCalls, exponentiateLogged.
  rewrite (proj2 (Z.leb_gt power 0)) by lia.
  replace (Z.to_nat (power - 1)) with (S (Z.to_nat (power - 2))) by lia.
  cbn [exponentiateLoop]. by rewrite He.
Qed.

Lemma isGraphCyclic_first_panics A e :
  2 ≤ Rows A → Multiply A A = Panicked e → isGraphCyclic A = Panicked e.
Proof.
  intros Hr He. unfold isGraphCyclic.
  by rewrite (proj1 (Exponentiate_first_panics A (Rows A) e Hr He)).
Qed.

Lemma refusedSquare_panics :
  Multiply refusedSquare refusedSquare = Panicked ChanSizeOutOfRange.
Proof. apply zeroSquare_refused; reflexivity. Qed.

Lemma refused_side_positive : 0 < 22721.
Proof. reflexivity. Qed.

Lemma refusedSquare_square : square 22721 refusedSquare.
Proof. apply zeroSquare_square. reflexivity. Qed.

Lemma unbufferedSquare_square : square 4194304 unbufferedSquare.
Proof. apply zeroSquare_square. reflexivity. Qed.

(** Further out, where memory is the only obstacle that is left aside: at
    side 4194304 the capacity [2^66] is 0 as an [int], the channels are
    made without a buffer, and the call deadlocks under every schedule. *)
Lemma unbufferedSquare_deadlocks :
  mul (mul 4194304 4194304) 4194304 = 0
  ∧ Multiply unbufferedSquare unbufferedSquare = Deadlocked
  ∧ ∀ st, multiplyRuns unbufferedSquare unbufferedSquare st →
      finished st = false.
Proof. split; [reflexivity|]. apply zeroSquare_deadlocks; reflexivity. Qed.

(** C1 as it is worded fails on the code.  For the square matrix of zeros
    of side 22721 the capacity asked of [make(chan Element, size)] is
    [22721 * 22721 * 22721 = 11729576311361] elements of 24 bytes, more
    than the 2^48 bytes the runtime allocates: [Multiply] panics and
    returns no matrix. *)
Lemma multiply_refused_at_side_22721 :
  square 22721 refusedSquare
  ∧ mul (mul 22721 22721) 22721 = 11729576311361
  ∧ makechan elementSize 11729576311361 = false
  ∧ Multiply refusedSquare refusedSquare = Panicked ChanSizeOutOfRange
  ∧ ¬ ∃ M, Multiply refusedSquare refusedSquare = Returned M.
Proof.
  split_and!; [exact refusedSquare_square|reflexivity|reflexivity
              |exact refusedSquare_panics|].
  intros [M HM]. rewrite refusedSquare_panics in HM. discriminate HM.
Qed.

(** C2 as it is worded fails on the code.  At side 22721 the call does
    not run to completion: channels buffered to the 11729576311361
    elements that are to be sent on each of them are refused by the
    runtime, and [Multiply] panics when it makes them, before a goroutine
    is started. *)
Lemma multiply_does_not_complete :
  square 22721 refusedSquare
  ∧ len (encode refusedSquare refusedSquare).1 = 11729576311361
  ∧ makechan elementSize
      (mul (mul (Rows refusedSquare) (Rows refusedSquare))
           (Rows refusedSquare)) = false
  ∧ Multiply refusedSquare refusedSquare = Panicked ChanSizeOutOfRange.
Proof.
  split_and!; [exact refusedSquare_square| |reflexivity
              |exact refusedSquare_panics].
  exact (proj1 (proj2 (encode_square 22721 refusedSquare refusedSquare
                         refused_side_positive refusedSquare_square
                         refusedSquare_square))).
Qed.

(** C4 as it is worded fails on the code.  On the square matrix of zeros
    of side 22721 [isGraphCyclic] returns no value: the first [Multiply]
    of [Exponentiate] panics when it makes the channels. *)
Lemma isGraphCyclic_refused_at_side_22721 :
  square 22721 refusedSquare
  ∧ isGraphCyclic refusedSquare = Panicked ChanSizeOutOfRange
  ∧ ¬ ∃ verdict, isGraphCyclic refusedSquare = Returned verdict.
Proof.
  assert (H : isGraphCyclic refusedSquare = Panicked ChanSizeOutOfRange).
  { apply isGraphCyclic_first_panics; [|exact refusedSquare_panics].
    intros Hgt. discriminate Hgt. }
  split_and!; [exact refusedSquare_square|exact H|].
  intros [verdict Hv]. rewrite H in Hv. discriminate Hv.
Qed.

(** C5 as it is worded fails on the code.  On the square matrix of zeros
    of side 22721, [Exponentiate] with power 3 does not perform 2
    multiplications: it calls [Multiply] once, and that call panics. *)
Lemma exponentiate_refused_at_side_22721 :
  square 22721 refusedSquare
  ∧ Exponentiate refusedSquare 2 = Panicked ChanSizeOutOfRange
  ∧ Exponentiate refusedSquare 3 = Panicked ChanSizeOutOfRange
  ∧ multiplyCalls refusedSquare 3 = [(refusedSquare, refusedSquare)].
Proof.
  assert (H2 : 2 ≤ 2) by (intros Hgt; discriminate Hgt).
  assert (H3 : 2 ≤ 3) by (intros Hgt; discriminate Hgt).
  split; [exact refusedSquare_square|]. split.
  - exact (proj1 (Exponentiate_first_panics _ 2 _ H2 refusedSquare_panics)).
  - exact (Exponentiate_first_panics _ 3 _ H3 refusedSquare_panics).
Qed.

(** C10 as it is worded fails on the code.  On the square matrix of
    zeros of side 22721 neither [Multiply] nor [Exponentiate] with power 2
    returns a matrix, of any shape. *)
Lemma no_result_at_side_22721 :
  square 22721 refusedSquare
  ∧ (¬ ∃ M, Multiply refusedSquare refusedSquare = Returned M)
  ∧ (¬ ∃ M, Exponentiate refusedSquare 2 = Returned M).
Proof.
  assert (H2 : 2 ≤ 2) by (intros Hgt; discriminate Hgt).
  pose proof (proj1 (Exponentiate_first_panics _ 2 _ H2 refusedSquare_panics))
    as He.
  split_and!; [exact refusedSquare_square| |].
  - intros [M HM]. rewrite refusedSquare_panics in HM. discriminate HM.
  - intros [M HM]. rewrite He in HM. discriminate HM.
Qed.

(** ** Operands of other shapes *)

Lemma roomy_step size result st st' :
  0 < size →
  roomy size result st → step size false st st' →
  roomy size result st' ∨ (mainPc st' = MPanicked ∧ result = None).
Proof.
  intros Hsize [Ht Hl Hb1 Hb2 Hb3 Hr Hf] [g Hg]. crush_state st.
  assert (Hz : (size =? 0) = false) by (apply Z.eqb_neq; lia).
  unfold outstanding, firstStream, secondStream, flagsAgree in *.
  simpl in Hf. destruct Hf as (Hc1 & Hc2 & Hc3 & Hnp & Hret & Hdr).
  destruct g; simpl in Hg; unfold mainStep, workerStep, assemble, decide_product in Hg;
    simpl in *; rewrite ?Hz in Hg.
  - destruct mp as [[|[x y] p]|y p| | | |]; simpl in *; simplify_eq.
    all: repeat (case_match; simplify_eq; simpl in * ).
    all: destruct_and?; simplify_eq.
    all: repeat match goal with
           | H : (_ <? _) = true |- _ => apply Z.ltb_lt in H
           end.
    all: use_accumulate.
    all: try (right; done).
    all: left.
    all: try (split; unfold outstanding, firstStream, secondStream, flagsAgree; simpl).
    all: rewrite <- ?(assoc_L (++)); simpl; try done.
    all: try (by lengths).
    all: try (split_and!; try done; try lia).
  - left.
    destruct wp as [|x [|]|e| |]; simpl in *; simplify_eq.
    all: destruct mp as [[|[x' y'] p]|y' p| | | |]; simpl in *; simplify_eq.
    all: repeat (case_match; simplify_eq; simpl in * ).
    all: destruct_and?; simplify_eq.
    all: repeat match goal with
           | H : (_ <? _) = true |- _ => apply Z.ltb_lt in H
           end.
    all: try (exfalso; destruct mp; simplify_eq; lengths; fail).
    all: try (split; unfold outstanding, firstStream, secondStream, flagsAgree; simpl).
    all: rewrite <- ?(assoc_L (++)); simpl; rewrite ?zip_with_cons; try done.
    all: try (by lengths).
    all: try (split_and!; try done; try lia).
Qed.

Lemma roomy_initial size result pairs entries :
  0 ≤ size →
  accumulateAll (products pairs) entries = result →
  len pairs ≤ 2 * size + 1 →
  roomy size result (initial pairs entries).
Proof.
  intros Hsize Ht Hs.
  assert (Ho : outstanding (initial pairs entries) = products pairs).
  { unfold outstanding, firstStream, secondStream. simpl.
    apply zip_with_fst_snd. }
  split.
  - by rewrite Ho.
  - unfold firstStream, secondStream. simpl. by rewrite !length_fmap.
  - done.
  - done.
  - done.
  - rewrite Ho. unfold products, len in *. by rewrite length_fmap.
  - unfold flagsAgree. simpl. done.
Qed.

(** A panic of the caller is final. *)
Lemma panicked_step size fails st st' :
  mainPc st = MPanicked → step size fails st st' → mainPc st' = MPanicked.
Proof.
  intros Hp [g Hg]. crush_state st. simpl in Hp. subst mp.
  destruct g; simpl in Hg; unfold mainStep, workerStep, decide_product in Hg;
    simpl in Hg; repeat (case_match; simplify_eq; simpl in * ); done.
Qed.

Lemma roomy_rtc size result st st' :
  0 < size →
  roomy size result st → rtc (step size false) st st' →
  roomy size result st' ∨ (mainPc st' = MPanicked ∧ result = None).
Proof.
  intros Hsize Hinv Hrtc. revert st' Hrtc.
  apply rtc_ind_r; [by left|]. intros st1 st2 Hrtc Hstep IH.
  destruct IH as [Hinv'|[Hp Hres]].
  - by eapply roomy_step.
  - right. split; [|done]. by eapply panicked_step.
Qed.

Lemma roomy_progress size result st :
  0 < size → roomy size result st → finished st = false →
  is_Some (scheduled size false st).
Proof.
  intros Hsize [Ht Hl Hb1 Hb2 Hb3 Hr Hf] Hfin. crush_state st.
  assert (Hz : (size =? 0) = false) by (apply Z.eqb_neq; lia).
  unfold outstanding, firstStream, secondStream, flagsAgree, finished,
    scheduled in *.
  simpl in *. destruct Hf as (Hc1 & Hc2 & Hc3 & Hnp & Hret & Hdr).
  destruct mp as [[|[x y] p]|y p| | | |]; try done;
    destruct wp as [|x' [|]|e| |]; simpl in *; destruct_and?; simplify_eq.
  all: unfold workerStep, mainStep; simpl; rewrite ?Hz.
  all: repeat (case_match; simplify_eq; simpl in * ); try done.
  all: repeat match goal with
         | H : (_ <? _) = false |- _ => apply Z.ltb_ge in H
         end.
  all: exfalso; lengths.
  all: rewrite ?length_app, ?length_fmap in *; simpl in *;
    rewrite ?length_fmap in *; lia.
Qed.

Lemma roomy_returned size result st :
  roomy size result st → mainPc st = MReturned →
  result = Some (computedEntries st) ∧ workerPc st = WExited.
Proof.
  intros [Ht Hl _ _ _ _ Hf] Hret. crush_state st.
  unfold flagsAgree, outstanding, firstStream, secondStream in *. simpl in *.
  subst mp. destruct Hf as (Hc1 & Hc2 & Hc3 & Hnp & [-> ->] & [_ ->]).
  simpl in *. destruct b2; [|done].
  rewrite zip_with_nil in Ht. simpl in Ht. done.
Qed.

Lemma roomy_finished size result st :
  roomy size result st → finished st = true → mainPc st = MReturned.
Proof.
  intros [_ _ _ _ _ _ (_ & _ & _ & Hnp & _)] Hfin.
  unfold finished in Hfin. by destruct (mainPc st).
Qed.

(** With the invariant, [run] on enough fuel ends in the return of the
    entries that the assembler's loop makes, or in its panic. *)
Lemma roomy_run size result fuel st :
  0 < size → roomy size result st → (potential st ≤ fuel)%nat →
  (mainPc (run size false fuel st) = MReturned
   ∧ result = Some (computedEntries (run size false fuel st)))
  ∨ (mainPc (run size false fuel st) = MPanicked ∧ result = None).
Proof.
  intros Hsize. revert st. induction fuel as [|fuel IH]; intros st Hinv Hfuel.
  - assert (Hfin : finished st = true) by (apply potential_finished; lia).
    simpl. pose proof (roomy_finished _ _ _ Hinv Hfin) as Hret.
    left. split; [done|]. by destruct (roomy_returned _ _ _ Hinv Hret).
  - simpl. destruct (finished st) eqn:Hfin.
    + pose proof (roomy_finished _ _ _ Hinv Hfin) as Hret.
      left. split; [done|]. by destruct (roomy_returned _ _ _ Hinv Hret).
    + destruct (roomy_progress _ _ _ Hsize Hinv Hfin) as [st' Hst'].
      rewrite Hst'. apply scheduled_step in Hst'.
      pose proof (step_potential _ _ _ _ Hst') as Hpot.
      destruct (roomy_step _ _ _ _ Hsize Hinv Hst') as [Hinv'|[Hp Hres]].
      * apply IH; [done|lia].
      * right. split; [|done].
        destruct fuel; simpl; [done|].
        unfold finished. by rewrite Hp.
Qed.

Section Padding.

(** The right operand: [r] rows of [c] entries each. *)
Variables (b : list (list Z)) (r c : nat).
Hypothesis b_grid : grid r c b.

(** A column that the right operand does not have receives nothing. *)
Lemma row_contribution_outside i i' k : ∀ (row : list Z) j sum,
  (j + length row ≤ r)%nat → (c ≤ k)%nat →
  contribution (products (encodeRow b i j row).1) i' k sum = sum.
Proof.
  destruct b_grid as [Hlen Hrows].
  induction row as [|firstValue row IH]; intros j sum Hj Hk; simpl in *.
  - done.
  - destruct (lookup_lt_is_Some_2 b j) as [secondRow Hsr]; [lia|].
    rewrite Hsr. specialize (IH (S j)).
    destruct (encodeRow b i (S j) row) as [rest fails]. simpl in *.
    rewrite products_app, contribution_app, inner_contribution, IH by lia.
    pose proof (Forall_lookup_1 _ _ _ _ Hrows Hsr) as Hl. simpl in Hl.
    rewrite (lookup_ge_None_2 secondRow) by lia. by case_decide.
Qed.

Lemma rows_contribution_outside i' k : ∀ (rows : list (list Z)) i sum,
  Forall (λ row, (length row ≤ r)%nat) rows → (c ≤ k)%nat →
  contribution (products (encodeRows b i rows).1) i' k sum = sum.
Proof.
  induction rows as [|row rows IH]; intros i sum Hrows Hk; simpl in *.
  - done.
  - apply Forall_cons in Hrows as [Hrow Hrows].
    destruct (row_inGrid b r c b_grid (S i) i row 0) as [Hf _]; [lia|lia|].
    pose proof (row_contribution_outside i i' k row 0 sum) as Hc.
    destruct (encodeRow b i 0 row) as [here fails]. simpl in *. subst fails.
    specialize (IH (S i)).
    destruct (encodeRows b (S i) rows) as [rest fails']. simpl in *.
    rewrite products_app, contribution_app, Hc, IH by (done || lia). done.
Qed.

End Padding.

Lemma paddedProduct_grid a b r c : grid r c (paddedProduct a b r c).
Proof.
  unfold paddedProduct. split.
  - by rewrite length_fmap, length_seq.
  - apply Forall_fmap, Forall_forall. intros i _. simpl.
    by rewrite length_fmap, length_seq.
Qed.

Lemma paddedProduct_entry a b r c i k :
  (i < r)%nat → (k < c)%nat →
  entry (paddedProduct a b r c) i k
  = if decide (k < r)%nat then serialEntry a b c i k else 0.
Proof.
  intros Hi Hk. unfold entry, paddedProduct.
  rewrite list_lookup_fmap, lookup_seq_lt by done. simpl.
  rewrite list_lookup_fmap, lookup_seq_lt by done. done.
Qed.

Lemma inGrid_wider r c c' e : (c ≤ c')%nat → inGrid r c e → inGrid r c' e.
Proof. unfold inGrid. lia. Qed.

Lemma encode_rectangular r c self other :
  0 < r → r ≤ c → shaped r c self → shaped c r other →
  (encode self other).2 = false
  ∧ len (encode self other).1 = r * c * r
  ∧ accumulateAll (products (encode self other).1) (zeroEntries r c)
    = Some (paddedProduct (Entries self) (Entries other)
              (Z.to_nat r) (Z.to_nat c)).
Proof.
  intros Hr Hrc Hself Hother.
  pose proof (shaped_grid _ _ _ Hself) as [HAl HAr].
  pose proof (shaped_grid _ _ _ Hother) as Hb.
  set (R := Z.to_nat r) in *. set (C := Z.to_nat c) in *.
  assert (HRC : (R ≤ C)%nat) by (unfold R, C; lia).
  unfold encode.
  destruct (rows_inGrid (Entries other) C R Hb R (Entries self) 0) as [Hf Hg].
  { lia. }
  { eapply Forall_impl; [exact HAr|]. intros row Hrow. simpl in *. lia. }
  split; [done|]. split.
  { unfold len. rewrite (rows_length (Entries other) C R C) by done.
    rewrite HAl. unfold R, C. lia. }
  assert (Hg' : Forall (inGrid R C)
                  (products (encodeRows (Entries other) 0 (Entries self)).1)).
  { eapply Forall_impl; [exact Hg|]. intros e. by apply inGrid_wider. }
  destruct (accumulateAll_spec R C _ (zeroEntries r c)
              (zeroEntries_grid r c) Hg') as (m' & Hacc & Hm' & Hent).
  rewrite Hacc. f_equal.
  apply (grid_ext R C); [done|apply paddedProduct_grid|].
  intros i k Hi Hk.
  rewrite Hent, zeroEntries_entry, paddedProduct_entry by done.
  case_decide as HkR.
  - rewrite (rows_contribution (Entries other) C R Hb (Entries self) C)
      by done.
    rewrite decide_True by lia. done.
  - apply (rows_contribution_outside (Entries other) C R Hb); [|lia].
    eapply Forall_impl; [exact HAr|]. intros row Hrow. simpl in *. lia.
Qed.

Lemma rectangular_roomy r c self other :
  0 < r → r ≤ c → r * c * r ≤ 2 * (r * r * r) + 1 → chansFit r →
  shaped r c self → shaped c r other →
  roomy (mul (mul r r) r)
        (Some (paddedProduct (Entries self) (Entries other)
                 (Z.to_nat r) (Z.to_nat c)))
        (initial (encode self other).1 (zeroEntries r c)).
Proof.
  intros Hr Hrc Hroom Hfit Hself Hother.
  destruct (encode_rectangular r c self other Hr Hrc Hself Hother)
    as (_ & Hlen & Hacc).
  pose proof (cube_positive r Hr Hfit) as Hsize.
  apply roomy_initial; [lia|done|].
  rewrite cube_size by done. lia.
Qed.

(** X19.  [Multiply] on operands that are not square.  For [self] of [r]
    rows and [c] columns and [other] of [c] rows and [r] columns, with
    [r ≤ c], [r ≤ 22720] (the channels of capacity [r^3] are made,
    [chansFit]) and no more than [2 r^3 + 1] pairs to send, [Multiply]
    returns under every schedule, without deadlock, a matrix of [r] rows and [c]
    columns: its first [r] columns hold the product, every entry the sum
    over [j] of [self[i][j] * other[j][k]] as an [int], and its other
    columns are zero. *)
Theorem multiply_rectangular r c self other :
  0 < r → r ≤ c → r * c * r ≤ 2 * (r * r * r) + 1 → chansFit r →
  shaped r c self → shaped c r other →
  ∃ M,
    Multiply self other = Returned M
    ∧ shaped r c M
    ∧ (∀ i k, (i < Z.to_nat r)%nat → (k < Z.to_nat c)%nat →
         entry (Entries M) i k
         = if decide (k < Z.to_nat r)%nat
           then wrap (sumZ (λ j, entry (Entries self) i j
                                 * entry (Entries other) j k)
                        0 (Z.to_nat c))
           else 0)
    ∧ ∀ st, multiplyRuns self other st →
        (finished st = true →
           mainPc st = MReturned ∧ computedEntries st = Entries M)
        ∧ (finished st = false →
           ∃ st', step (mul (mul r r) r) false st st').
Proof.
  intros Hr Hrc Hroom Hfit Hself Hother.
  pose proof (rectangular_roomy r c self other Hr Hrc Hroom Hfit Hself Hother)
    as Hinv.
  pose proof (cube_positive r Hr Hfit) as Hsize.
  destruct (encode_rectangular r c self other Hr Hrc Hself Hother)
    as (Hf & _ & _).
  assert (HRows : Rows self = r) by (by destruct Hself).
  assert (HCols : Columns self = c) by (by destruct Hself as (_ & ? & _)).
  assert (HColsO : Columns other = r) by (by destruct Hother as (_ & ? & _)).
  exists (mkMatrix r c (paddedProduct (Entries self) (Entries other)
                          (Z.to_nat r) (Z.to_nat c))).
  split_and!.
  - assert (Hc : c ≤ 2 * r + 1).
    { destruct (decide (c ≤ 2 * r + 1)) as [|Hgt]; [done|].
      assert (r * r * (2 * r + 2) ≤ r * r * c)
        by (apply Z.mul_le_mono_nonneg_l; nia).
      nia. }
    destruct (chansFit_makeslice r c Hr Hfit) as [Hsr Hsc]; [lia|].
    rewrite (Multiply_pipeline r c)
      by (done || lia || by apply chansFit_makechan).
    cbn zeta.
    destruct (encode self other) as [pairs fails]. simpl in *. subst fails.
    set (st0 := initial pairs (zeroEntries r c)) in *.
    destruct (roomy_run _ _ (potential st0) st0 Hsize Hinv (le_n _))
      as [[Hret Hres]|[_ ?]]; [|done].
    rewrite Hret. by injection Hres as ->.
  - apply grid_shaped; [lia..|]. apply paddedProduct_grid.
  - intros i k Hi Hk. simpl. rewrite paddedProduct_entry by done.
    case_decide; [|done]. by rewrite serialEntry_dot, dot_sumZ.
  - intros st Hrun. unfold multiplyRuns in Hrun.
    rewrite HRows, HCols, Hf in Hrun.
    destruct (roomy_rtc _ _ _ _ Hsize Hinv Hrun) as [Hinv'|[_ ?]]; [|done].
    split.
    + intros Hfin.
      pose proof (roomy_finished _ _ _ Hinv' Hfin) as Hret.
      split; [done|].
      destruct (roomy_returned _ _ _ Hinv' Hret) as [Hres _].
      by injection Hres as ->.
    + intros Hfin.
      destruct (roomy_progress _ _ _ Hsize Hinv' Hfin) as [st' Hst'].
      exists st'. by apply scheduled_step.
Qed.

(** ** Operands with more rows than columns *)

Lemma accumulate_outside r c m e :
  grid r c m → ¬ inGrid r c e → accumulate m e = None.
Proof.
  intros [Hlen Hrows] Hout. unfold accumulate, index, inGrid in *.
  destruct (RowIndex e <? 0) eqn:Hr0; [done|]. apply Z.ltb_ge in Hr0.
  destruct (m !! Z.to_nat (RowIndex e)) as [row|] eqn:Hrow; [|done]. simpl.
  destruct (ColIndex e <? 0) eqn:Hc0; [done|]. apply Z.ltb_ge in Hc0.
  apply lookup_lt_Some in Hrow as Hlt.
  pose proof (Forall_lookup_1 _ _ _ _ Hrows Hrow) as Hl. simpl in Hl.
  rewrite (lookup_ge_None_2 row); [done|]. lia.
Qed.

Lemma accumulateAll_outside r c es : ∀ m,
  grid r c m → Exists (λ e, ¬ inGrid r c e) es →
  accumulateAll es m = None.
Proof.
  induction es as [|e es IH]; intros m Hm Hex.
  - by apply Exists_nil in Hex.
  - simpl.
    destruct (decide (0 ≤ RowIndex e < Z.of_nat r
                      ∧ 0 ≤ ColIndex e < Z.of_nat c)) as [Hin|Hout].
    + destruct (accumulate_spec r c m e Hm Hin) as (m' & -> & Hm' & _).
      simpl. apply IH; [done|].
      apply Exists_cons in Hex as [Hex|Hex]; [done|done].
    + by rewrite (accumulate_outside r c).
Qed.

Lemma encodeInner_elem i j firstValue : ∀ (row : list Z) k t v,
  row !! t = Some v →
  (mkElement (Z.of_nat i) (Z.of_nat j) firstValue,
   mkElement (Z.of_nat j) (Z.of_nat (k + t)) v)
  ∈ encodeInner i j firstValue k row.
Proof.
  induction row as [|secondValue row IH]; intros k t v Hv; [done|].
  destruct t as [|t]; simpl in *.
  - injection Hv as ->. rewrite Nat.add_0_r. apply list_elem_of_here.
  - apply list_elem_of_further.
    replace (k + S t)%nat with (S k + t)%nat by lia. by apply IH.
Qed.

Lemma encode_shaped r c self other :
  0 < r → 0 < c → shaped r c self → shaped c r other →
  (encode self other).2 = false
  ∧ len (encode self other).1 = r * c * r.
Proof.
  intros Hr Hc Hself Hother.
  pose proof (shaped_grid _ _ _ Hself) as [HAl HAr].
  pose proof (shaped_grid _ _ _ Hother) as Hb.
  set (R := Z.to_nat r) in *. set (C := Z.to_nat c) in *.
  unfold encode.
  destruct (rows_inGrid (Entries other) C R Hb R (Entries self) 0) as [Hf _].
  { lia. }
  { eapply Forall_impl; [exact HAr|]. intros row Hrow. simpl in *. lia. }
  split; [done|].
  unfold len. rewrite (rows_length (Entries other) C R C) by done.
  rewrite HAl. unfold R, C. lia.
Qed.

(** The encoder of a tall left operand sends a pair whose product falls
    outside the grid under construction. *)
Lemma encode_tall r c self other :
  0 < c → c < r → shaped r c self → shaped c r other →
  accumulateAll (products (encode self other).1) (zeroEntries r c) = None.
Proof.
  intros Hc Hrc Hself Hother.
  pose proof (shaped_grid _ _ _ Hself) as [HAl HAr].
  pose proof (shaped_grid _ _ _ Hother) as [HBl HBr].
  set (R := Z.to_nat r) in *. set (C := Z.to_nat c) in *.
  apply (accumulateAll_outside R C); [apply zeroEntries_grid|].
  unfold encode.
  destruct (Entries self) as [|row0 rows] eqn:Hrows0;
    [simpl in HAl; lia|].
  apply Forall_cons in HAr as [Hrow0 HAr].
  destruct row0 as [|firstValue row0]; [simpl in Hrow0; lia|].
  destruct (lookup_lt_is_Some_2 (Entries other) 0) as [secondRow Hsr]; [lia|].
  pose proof (Forall_lookup_1 _ _ _ _ HBr Hsr) as Hl. simpl in Hl.
  destruct (lookup_lt_is_Some_2 secondRow C) as [v Hv]; [lia|].
  pose proof (encodeInner_elem 0 0 firstValue secondRow 0 C v Hv) as Helem.
  cbn [encodeRows encodeRow]. rewrite Hsr.
  destruct (encodeRow (Entries other) 0 1 row0) as [rest fails].
  apply Exists_exists.
  exists (product (mkElement 0 0 firstValue) (mkElement 0 (Z.of_nat C) v)).
  split.
  - apply (list_elem_of_fmap_2 (λ p, product p.1 p.2)) in Helem.
    destruct fails; [|destruct (encodeRows _ _ _) as [rest' fails']];
      cbn [fst]; rewrite ?products_app;
      repeat (apply elem_of_app; left); exact Helem.
  - unfold inGrid. simpl. lia.
Qed.

(** X20.  [Multiply] on a left operand with more rows than columns.  For
    [self] of [r] rows and [c] columns and [other] of [c] rows and [r]
    columns with [c < r] and [r ≤ 22720] (the channels of capacity [r^3]
    are made, [chansFit]), the assembler is sent a product for a column
    that the [r]-by-[c] result does not have: under every schedule the
    call ends in an index-out-of-range panic, never in a return and never
    in a deadlock. *)
Theorem multiply_tall_panics r c self other :
  0 < c → c < r → chansFit r → shaped r c self → shaped c r other →
  Multiply self other = Panicked IndexOutOfRange
  ∧ ∀ st, multiplyRuns self other st →
      (finished st = true → mainPc st = MPanicked)
      ∧ (finished st = false →
         ∃ st', step (mul (mul r r) r) false st st').
Proof.
  intros Hc Hrc Hfit Hself Hother.
  assert (Hr : 0 < r) by lia.
  pose proof (cube_positive r Hr Hfit) as Hsize.
  destruct (encode_shaped r c self other Hr Hc Hself Hother) as (Hf & Hlen).
  pose proof (encode_tall r c self other Hc Hrc Hself Hother) as Hnone.
  assert (Hinv : roomy (mul (mul r r) r) None
                   (initial (encode self other).1 (zeroEntries r c))).
  { apply roomy_initial; [lia|done|]. rewrite cube_size by done. nia. }
  assert (HRows : Rows self = r) by (by destruct Hself).
  assert (HCols : Columns self = c) by (by destruct Hself as (_ & ? & _)).
  assert (HColsO : Columns other = r) by (by destruct Hother as (_ & ? & _)).
  split.
  - destruct (chansFit_makeslice r c Hr Hfit) as [Hsr Hsc]; [lia|].
    rewrite (Multiply_pipeline r c)
      by (done || lia || by apply chansFit_makechan).
    cbn zeta.
    destruct (encode self other) as [pairs fails]. simpl in *. subst fails.
    set (st0 := initial pairs (zeroEntries r c)) in *.
    destruct (roomy_run _ _ (potential st0) st0 Hsize Hinv (le_n _))
      as [[_ ?]|[Hp _]]; [done|].
    by rewrite Hp.
  - intros st Hrun. unfold multiplyRuns in Hrun.
    rewrite HRows, HCols, Hf in Hrun.
    destruct (roomy_rtc _ _ _ _ Hsize Hinv Hrun) as [Hinv'|[Hp _]].
    + split.
      * intros Hfin.
        pose proof (roomy_finished _ _ _ Hinv' Hfin) as Hret.
        by destruct (roomy_returned _ _ _ Hinv' Hret).
      * intros Hfin.
        destruct (roomy_progress _ _ _ Hsize Hinv' Hfin) as [st' Hst'].
        exists st'. by apply scheduled_step.
    + split; [done|]. unfold finished. by rewrite Hp.
Qed.

(** ** The further properties at the fixtures *)

Lemma three_positive : 0 < 3.
Proof. reflexivity. Defined.

Lemma three_chansFit : chansFit 3.
Proof. unfold chansFit. by vm_compute. Defined.

Lemma three_cubeFits : cubeFits 3.
Proof. unfold cubeFits. by vm_compute. Defined.

Lemma wideMatrix_shaped : shaped 2 3 wideMatrix.
Proof. shape_fixture. Defined.

Lemma tallMatrix_shaped : shaped 3 2 tallMatrix.
Proof. shape_fixture. Defined.

Lemma threeCycle_square : square 3 threeCycle.
Proof. shape_fixture. Defined.

Lemma fixtureLeft_ints : ints (Entries fixtureLeft).
Proof.
  unfold ints, fixtureLeft. simpl.
  repeat first [apply Forall_nil_2 | apply Forall_cons_2].
  all: split; vm_compute; discriminate.
Defined.

Lemma threeCycle_binary : binary threeCycle.
Proof.
  unfold binary, threeCycle. simpl.
  repeat first [apply Forall_nil_2 | apply Forall_cons_2];
    first [by left | by right].
Defined.

Lemma exponentiate_needs_square_witness :
  (Rows wideMatrix ≠ Columns wideMatrix ∧ 2 ≤ 2)
  ∧ Exponentiate wideMatrix 2 = Panicked IncompatibleDimensionsError
  ∧ multiplyCalls wideMatrix 2 = [(wideMatrix, wideMatrix)]
  ∧ Exponentiate wideMatrix 1 = Returned wideMatrix.
Proof.
  assert (H1 : Rows wideMatrix ≠ Columns wideMatrix) by (by vm_compute).
  assert (H2 : 2 ≤ 2) by (by vm_compute).
  exact (conj (conj H1 H2) (exponentiate_needs_square wideMatrix 2 H1 H2)).
Defined.

Lemma NewMatrix_zero_filled_witness :
  (0 < 2 ∧ 0 < 3 ∧ sliceSize * 2 ≤ maxAlloc ∧ intSize * 3 ≤ maxAlloc)
  ∧ ∃ m, NewMatrix 2 3 [] = Returned (m, None)
         ∧ shaped 2 3 m
         ∧ Forall (Forall (λ v, v = 0)) (Entries m).
Proof.
  assert (Hrows : sliceSize * 2 ≤ maxAlloc) by (by vm_compute).
  assert (Hcolumns : intSize * 3 ≤ maxAlloc) by (by vm_compute).
  exact (conj (conj two_positive
                 (conj three_positive (conj Hrows Hcolumns)))
           (proj1 (NewMatrix_zero_filled 2 3 two_positive three_positive)
              (conj Hrows Hcolumns))).
Defined.

Lemma NewMatrix_shape_check_witness :
  (0 < 2 ∧ 0 < 2)
  ∧ (len raggedEntries = 2 ∧ len <$> head raggedEntries = Some 2 →
     NewMatrix 2 2 [raggedEntries; Entries wideMatrix]
     = Returned (mkMatrix 2 2 raggedEntries, None))
  ∧ (¬ (len raggedEntries = 2 ∧ len <$> head raggedEntries = Some 2) →
     NewMatrix 2 2 [raggedEntries; Entries wideMatrix]
     = Returned (zeroMatrix, Some ShapeMismatchError)).
Proof.
  exact (conj (conj two_positive two_positive)
           (NewMatrix_shape_check 2 2 raggedEntries [Entries wideMatrix]
              two_positive two_positive)).
Defined.

Lemma NewMatrix_accepts_grid_witness :
  (0 < 2 ∧ 0 < 3 ∧ grid (Z.to_nat 2) (Z.to_nat 3) (Entries wideMatrix))
  ∧ NewMatrix 2 3 [Entries wideMatrix]
    = Returned (mkMatrix 2 3 (Entries wideMatrix), None)
  ∧ shaped 2 3 (mkMatrix 2 3 (Entries wideMatrix)).
Proof.
  assert (Hgrid : grid (Z.to_nat 2) (Z.to_nat 3) (Entries wideMatrix)).
  { split; [reflexivity|].
    repeat first [apply Forall_nil_2 | apply Forall_cons_2]; reflexivity. }
  exact (conj (conj two_positive (conj three_positive Hgrid))
           (NewMatrix_accepts_grid 2 3 (Entries wideMatrix) []
              two_positive three_positive Hgrid)).
Defined.

Lemma main_on_square_table_witness :
  ((0 < 2)%nat ∧ chansFit (Z.of_nat 2)
   ∧ rectangular 2 2 (Entries fixtureLeft))
  ∧ ∃ M,
      Exponentiate (mkMatrix (Z.of_nat 2) (Z.of_nat 2) (Entries fixtureLeft))
        (Z.of_nat 2) = Returned M
      ∧ mainOnTable (Entries fixtureLeft)
        = [PrintedMatrix
             (mkMatrix (Z.of_nat 2) (Z.of_nat 2) (Entries fixtureLeft));
           PrintedVerdict (negb (Trace M =? 0))].
Proof.
  assert (H1 : (0 < 2)%nat) by lia.
  assert (H2 : rectangular 2 2 (Entries fixtureLeft)).
  { split; [reflexivity|].
    repeat first [apply Forall_nil_2 | apply Forall_cons_2]; reflexivity. }
  exact (conj (conj H1 (conj two_chansFit H2))
           (main_on_square_table 2 (Entries fixtureLeft) H1 two_chansFit H2)).
Defined.

Lemma main_on_other_tables_witness :
  (rectangular 2 3 wideTable ∧ 2%nat ≠ 3%nat)
  ∧ (Warned ∉ mainOnTable wideTable)
  ∧ mainOnTable wideTable
    = [Fatal (if decide (2 = 0)%nat then DimensionError
              else ShapeMismatchError)].
Proof.
  assert (H1 : rectangular 2 3 wideTable).
  { split; [reflexivity|].
    repeat first [apply Forall_nil_2 | apply Forall_cons_2]; reflexivity. }
  assert (H2 : 2%nat ≠ 3%nat) by lia.
  exact (conj (conj H1 H2) (main_on_other_tables 2 3 wideTable H1 H2)).
Defined.

Lemma exponentiate_is_power_mod_2_64_witness :
  (0 < 2 ∧ chansFit 2 ∧ square 2 fixtureLeft ∧ ints (Entries fixtureLeft)
   ∧ 1 ≤ 3)
  ∧ ∃ M, Exponentiate fixtureLeft 3 = Returned M
         ∧ Rows M = 2 ∧ Columns M = 2
         ∧ ∀ i k, entry (Entries M) i k
                  = wrap (entry (powerZ (Entries fixtureLeft) (Z.to_nat 2)
                                   (Z.to_nat (3 - 1))) i k).
Proof.
  assert (H13 : 1 ≤ 3) by (by vm_compute).
  exact (conj (conj two_positive
                 (conj two_chansFit
                    (conj fixtureLeft_square (conj fixtureLeft_ints H13))))
           (exponentiate_is_power_mod_2_64 2 fixtureLeft 3 two_positive
              two_chansFit fixtureLeft_square fixtureLeft_ints H13)).
Defined.

Lemma exponentiate_add_witness :
  (0 < 2 ∧ chansFit 2 ∧ square 2 fixtureLeft ∧ ints (Entries fixtureLeft)
   ∧ 1 ≤ 2 ∧ 1 ≤ 3)
  ∧ ∃ P Q M,
      Exponentiate fixtureLeft 2 = Returned P
      ∧ Exponentiate fixtureLeft 3 = Returned Q
      ∧ Multiply P Q = Returned M
      ∧ Exponentiate fixtureLeft (2 + 3) = Returned M.
Proof.
  assert (H12 : 1 ≤ 2) by (by vm_compute).
  assert (H13 : 1 ≤ 3) by (by vm_compute).
  exact (conj (conj two_positive
                 (conj two_chansFit
                    (conj fixtureLeft_square
                       (conj fixtureLeft_ints (conj H12 H13)))))
           (exponentiate_add 2 fixtureLeft 2 3 two_positive two_chansFit
              fixtureLeft_square fixtureLeft_ints H12 H13)).
Defined.

Lemma multiply_identity_witness :
  (0 < 2 ∧ chansFit 2 ∧ square 2 fixtureLeft ∧ ints (Entries fixtureLeft))
  ∧ Multiply fixtureLeft (identity 2) = Returned fixtureLeft
  ∧ Multiply (identity 2) fixtureLeft = Returned fixtureLeft.
Proof.
  exact (conj (conj two_positive
                 (conj two_chansFit (conj fixtureLeft_square fixtureLeft_ints)))
           (multiply_identity 2 fixtureLeft two_positive two_chansFit
              fixtureLeft_square fixtureLeft_ints)).
Defined.

Lemma isGraphCyclic_iff_closed_walk_witness :
  (0 < 3 ∧ 3 ^ 3 ≤ max_int ∧ square 3 threeCycle ∧ binary threeCycle)
  ∧ ∃ verdict,
      isGraphCyclic threeCycle = Returned verdict
      ∧ (verdict = true ↔ closedWalk threeCycle (Z.to_nat 3)).
Proof.
  assert (Hpow : 3 ^ 3 ≤ max_int) by (by vm_compute).
  exact (conj (conj three_positive
                 (conj Hpow (conj threeCycle_square threeCycle_binary)))
           (isGraphCyclic_iff_closed_walk 3 threeCycle three_positive Hpow
              threeCycle_square threeCycle_binary)).
Defined.

Lemma positive_verdict_has_closed_walk_witness :
  (0 < 3 ∧ cubeFits 3 ∧ square 3 threeCycle
   ∧ isGraphCyclic threeCycle = Returned true)
  ∧ closedWalk threeCycle (Z.to_nat 3).
Proof.
  assert (Hcyc : isGraphCyclic threeCycle = Returned true) by (by vm_compute).
  exact (conj (conj three_positive
                 (conj three_cubeFits (conj threeCycle_square Hcyc)))
           (positive_verdict_has_closed_walk 3 threeCycle three_positive
              three_cubeFits threeCycle_square Hcyc)).
Defined.

(** The whole run of the product of the two fixtures, from the start of
    the pipeline to the return of the caller: 54 steps for 8 pairs. *)
Lemma pipeline_runs_are_bounded_witness :
  (nsteps (step 8 false) 54
     (initial (encode fixtureLeft fixtureRight).1 (zeroEntries 2 2))
     (run 8 false 62
        (initial (encode fixtureLeft fixtureRight).1 (zeroEntries 2 2)))
   ∧ mainPc (run 8 false 62
               (initial (encode fixtureLeft fixtureRight).1
                  (zeroEntries 2 2))) = MReturned)
  ∧ (54 ≤ 7 * length (encode fixtureLeft fixtureRight).1 + 6)%nat.
Proof.
  assert (H : nsteps (step 8 false) 54
                (initial (encode fixtureLeft fixtureRight).1 (zeroEntries 2 2))
                (run 8 false 62
                   (initial (encode fixtureLeft fixtureRight).1
                      (zeroEntries 2 2)))).
  { exact (run_nsteps 8 false 62
             (initial (encode fixtureLeft fixtureRight).1 (zeroEntries 2 2))). }
  assert (Hret : mainPc (run 8 false 62
                           (initial (encode fixtureLeft fixtureRight).1
                              (zeroEntries 2 2))) = MReturned)
    by reflexivity.
  exact (conj (conj H Hret)
           (pipeline_runs_are_bounded 8 false _ _ 54%nat _ H)).
Defined.

Lemma multiply_deadlocks_witness :
  (Rows rowVector = Columns columnVector ∧ 0 < Rows rowVector
   ∧ 0 < Columns rowVector
   ∧ makeslice sliceSize (Rows rowVector) = true
   ∧ makeslice intSize (Columns rowVector) = true
   ∧ makechan elementSize
       (mul (mul (Rows rowVector) (Rows rowVector)) (Rows rowVector)) = true
   ∧ 2 * mul (mul (Rows rowVector) (Rows rowVector)) (Rows rowVector) + 1
     < len (encode rowVector columnVector).1)
  ∧ Multiply rowVector columnVector = Deadlocked
  ∧ ∀ st, multiplyRuns rowVector columnVector st → finished st = false.
Proof.
  assert (H1 : Rows rowVector = Columns columnVector) by reflexivity.
  assert (H2 : 0 < Rows rowVector) by reflexivity.
  assert (H3 : 0 < Columns rowVector) by reflexivity.
  assert (Hs1 : makeslice sliceSize (Rows rowVector) = true) by reflexivity.
  assert (Hs2 : makeslice intSize (Columns rowVector) = true) by reflexivity.
  assert (H4 : makechan elementSize
                 (mul (mul (Rows rowVector) (Rows rowVector))
                      (Rows rowVector)) = true) by reflexivity.
  assert (H5 : 2 * mul (mul (Rows rowVector) (Rows rowVector))
                     (Rows rowVector) + 1
               < len (encode rowVector columnVector).1) by (by vm_compute).
  exact (conj (conj H1 (conj H2 (conj H3 (conj Hs1 (conj Hs2 (conj H4 H5))))))
           (multiply_deadlocks rowVector columnVector H1 H2 H3 Hs1 Hs2 H4
              H5)).
Defined.

Lemma multiply_rectangular_witness :
  (0 < 2 ∧ 2 ≤ 3 ∧ 2 * 3 * 2 ≤ 2 * (2 * 2 * 2) + 1 ∧ chansFit 2
   ∧ shaped 2 3 wideMatrix ∧ shaped 3 2 tallMatrix)
  ∧ ∃ M,
      Multiply wideMatrix tallMatrix = Returned M
      ∧ shaped 2 3 M
      ∧ (∀ i k, (i < Z.to_nat 2)%nat → (k < Z.to_nat 3)%nat →
           entry (Entries M) i k
           = if decide (k < Z.to_nat 2)%nat
             then wrap (sumZ (λ j, entry (Entries wideMatrix) i j
                                   * entry (Entries tallMatrix) j k)
                          0 (Z.to_nat 3))
             else 0)
      ∧ ∀ st, multiplyRuns wideMatrix tallMatrix st →
          (finished st = true →
             mainPc st = MReturned ∧ computedEntries st = Entries M)
          ∧ (finished st = false →
             ∃ st', step (mul (mul 2 2) 2) false st st').
Proof.
  assert (H23 : 2 ≤ 3) by (by vm_compute).
  assert (Hroom : 2 * 3 * 2 ≤ 2 * (2 * 2 * 2) + 1) by (by vm_compute).
  exact (conj (conj two_positive
                 (conj H23
                    (conj Hroom
                       (conj two_chansFit
                          (conj wideMatrix_shaped tallMatrix_shaped)))))
           (multiply_rectangular 2 3 wideMatrix tallMatrix two_positive H23
              Hroom two_chansFit wideMatrix_shaped tallMatrix_shaped)).
Defined.

Lemma multiply_tall_panics_witness :
  (0 < 2 ∧ 2 < 3 ∧ chansFit 3 ∧ shaped 3 2 tallMatrix
   ∧ shaped 2 3 wideMatrix)
  ∧ Multiply tallMatrix wideMatrix = Panicked IndexOutOfRange
  ∧ ∀ st, multiplyRuns tallMatrix wideMatrix st →
      (finished st = true → mainPc st = MPanicked)
      ∧ (finished st = false →
         ∃ st', step (mul (mul 3 3) 3) false st st').
Proof.
  assert (H23 : 2 < 3) by reflexivity.
  exact (conj (conj two_positive
                 (conj H23
                    (conj three_chansFit
                       (conj tallMatrix_shaped wideMatrix_shaped))))
           (multiply_tall_panics 3 2 tallMatrix wideMatrix two_positive H23
              three_chansFit tallMatrix_shaped wideMatrix_shaped)).
Defined.
